(** * ERCRD framework: a shallow embedding of [src/ercrd/core.py]

    The Python module defines the abstract class [ERCRDOptimizer] (time
    discretisation, trapezoidal aggregation of three weighted cost terms,
    stacking of per-timestep constraints, the driver around
    [scipy.optimize.minimize]) and the concrete class [EnergyERCRD].

    Conventions of the embedding:
    - a Python float is an exact rational ([Qc], canonical rationals with
      Leibniz equality); rounding, infinities and NaN are not modelled;
    - a one-dimensional numpy array is a [list Qc], a two-dimensional one a
      list of rows;
    - [discretization_steps] and [num_nodes] are natural numbers, a row of
      [generator_costs] is a triple;
    - an instance ([self]) is a record of its attributes; a method is a
      computation in a state-and-exception monad over that record, so that
      the lazily created attribute [prev_P] and every raised exception are
      explicit;
    - [scipy.optimize.minimize] is external: [optimize] takes it as an
      argument. *)

From Stdlib Require Import QArith Qcanon.
From stdpp Require Import base numbers list strings gmap.

Local Open Scope Qc_scope.

(** ** Exceptions and the method monad *)

Inductive exn : Type :=
  | ZeroDivisionError
  | ValueError
  | IndexError
  | NotImplementedError.

Inductive outcome (A : Type) : Type :=
  | Ok (a : A)
  | Raise (e : exn).
Arguments Ok {A} a.
Arguments Raise {A} e.

(** A method body: it reads and may update [self], and either returns a
    value or raises; attribute updates made before a [raise] persist. *)
Definition M (S A : Type) : Type := S → outcome A * S.

Global Instance M_ret {S} : MRet (M S) := λ A a, λ self, (Ok a, self).
Global Instance M_bind {S} : MBind (M S) := λ A B f m, λ self,
  match m self with
  | (Ok a, self') => f a self'
  | (Raise e, self') => (Raise e, self')
  end.

Definition raise {S A} (e : exn) : M S A := λ self, (Raise e, self).
(** Reading an attribute, and assigning to attributes. *)
Definition attr {S A} (f : S → A) : M S A := λ self, (Ok (f self), self).
Definition modify {S} (f : S → S) : M S unit := λ self, (Ok (), f self).

(** [for x in xs: acc = body(x, acc)] *)
Fixpoint for_each {S A B} (xs : list A) (body : A → B → M S B) (acc : B)
    : M S B :=
  match xs with
  | [] => mret acc
  | x :: xs' => acc' ← body x acc; for_each xs' body acc'
  end.

(** A method body whose final instance is related by [R] to the initial
    one, whether it returns or raises. *)
Definition keeps {S} (R : relation S) {A} (m : M S A) : Prop :=
  ∀ self, R self (m self).2.

(** A method body that leaves every attribute as it found it. *)
Definition preserves_self {S A} (m : M S A) : Prop := keeps eq m.

(** [range(n)] and [range(a, b)] *)
Definition range (n : nat) : list nat := seq 0 n.
Definition range2 (a b : nat) : list nat := seq a (b - a).

(** ** The numpy operations the module uses *)

Definition Qc_of_nat (n : nat) : Qc := Qc_of_Z (Z.of_nat n).

(** [a[i]] for a non-negative index. *)
Definition getitem {S A} (a : list A) (i : nat) : M S A :=
  match a !! i with
  | Some v => mret v
  | None => raise IndexError
  end.

(** [a // b] on non-negative integers. *)
Definition floordiv {S} (a b : nat) : M S nat :=
  if decide (b = 0)%nat then raise ZeroDivisionError else mret (a / b)%nat.

(** Row-major split of a buffer into [rows] rows of [cols] entries. *)
Fixpoint rows_of {A} (rows cols : nat) (v : list A) : list (list A) :=
  match rows with
  | O => []
  | Datatypes.S r => take cols v :: rows_of r cols (drop cols v)
  end.

(** [v.reshape(rows, cols)]: numpy refuses a shape whose size differs from
    the array's. *)
Definition reshape {S A} (v : list A) (rows cols : nat) : M S (list (list A)) :=
  if decide (length v = rows * cols)%nat
  then mret (rows_of rows cols v)
  else raise ValueError.

(** [np.tile(x0, reps)] on a one-dimensional array. *)
Fixpoint tile {A} (x0 : list A) (reps : nat) : list A :=
  match reps with
  | O => []
  | Datatypes.S r => x0 ++ tile x0 r
  end.

(** [np.sum] of a one-dimensional array. *)
Definition np_sum (v : list Qc) : Qc := foldr Qcplus 0 v.

(** [a - b] on one-dimensional arrays, with numpy's broadcasting: equal
    lengths subtract element-wise, a length-one operand is stretched, any
    other pair of lengths is refused. *)
Definition np_sub {S} (a b : list Qc) : M S (list Qc) :=
  if decide (length a = length b) then mret (zip_with Qcminus a b)
  else match a, b with
       | [x], _ => mret ((λ y, x - y) <$> b)
       | _, [y] => mret ((λ x, x - y) <$> a)
       | _, _ => raise ValueError
       end.

(** [a ** 2] element-wise. *)
Definition np_square (a : list Qc) : list Qc := (λ x, x * x) <$> a.

(** Modelled from the spec: the module has no encoder of its own (the flat
    vector comes from [np.tile] or from the solver); the spec's [encode] is
    the row-major flatten, inverse of [reshape]. *)
Definition encode {A} (X : list (list A)) : list A := concat X.

(** ** class ERCRDOptimizer *)

Record ERCRDOptimizer : Type := {
  alpha : Qc;
  beta : Qc;
  gamma : Qc;
  T : Qc;
  n_steps : nat;
  dt : Qc
}.

(** [ERCRDOptimizer.__init__]; the division raises when
    [discretization_steps] is zero. *)
Definition ERCRDOptimizer_init (alpha beta gamma time_horizon : Qc)
    (discretization_steps : nat) : outcome ERCRDOptimizer :=
  if decide (discretization_steps = 0)%nat then Raise ZeroDivisionError
  else Ok {| alpha := alpha; beta := beta; gamma := gamma;
             T := time_horizon; n_steps := discretization_steps;
             dt := time_horizon / Qc_of_nat discretization_steps |}.

(** The keyword defaults of [__init__]. *)
Definition default_alpha : Qc := Q2Qc (4 # 10).
Definition default_beta : Qc := Q2Qc (3 # 10).
Definition default_gamma : Qc := Q2Qc (3 # 10).
Definition default_time_horizon : Qc := 1.
Definition default_discretization_steps : nat := 100.
Definition default_method : string := "SLSQP".
Definition default_max_iter : nat := 1000.

(** The overridable methods. [S] is the type of the instance; [base] gives
    the attributes set by [ERCRDOptimizer.__init__]. *)
Class DomainModel (S : Type) : Type := {
  base : S → ERCRDOptimizer;
  efficiency_term : list Qc → Qc → M S Qc;
  adaptability_term : list Qc → Qc → M S Qc;
  collective_efficiency_term : list Qc → Qc → M S Qc;
  system_dynamics : list Qc → list Qc → list Qc → Qc → M S (list Qc);
  constraints : list Qc → Qc → M S (list Qc)
}.

(** The base class itself: every term raises. *)
Global Instance ERCRDOptimizer_model : DomainModel ERCRDOptimizer := {|
  base := id;
  efficiency_term := λ _ _, raise NotImplementedError;
  adaptability_term := λ _ _, raise NotImplementedError;
  collective_efficiency_term := λ _ _, raise NotImplementedError;
  system_dynamics := λ _ _ _ _, raise NotImplementedError;
  constraints := λ _ _, raise NotImplementedError
|}.

Section Optimizer.
Context {S : Type} `{!DomainModel S}.

(** The quadrature weight of sample [k] among [K]. *)
Definition weight (k K : nat) : Qc :=
  if decide (k = 0%nat ∨ Z.of_nat k = (Z.of_nat K - 1)%Z)
  then Q2Qc (1 # 2) else 1.

(** The sum of the quadrature weights of the first [i] samples among [K]. *)
Definition weight_sum (K i : nat) : Qc :=
  np_sum ((λ k, weight k K) <$> range i).

(** One iteration of the loop of [objective_function]. *)
Definition objective_step (x_trajectory : list (list Qc)) (k : nat)
    (total_cost : Qc) : M S Qc :=
  dt0 ← attr (dt ∘ base);
  let t := Qc_of_nat k * dt0 in
  x_k ← getitem x_trajectory k;
  a ← attr (alpha ∘ base);
  e ← efficiency_term x_k t;
  let efficiency := a * e in
  b ← attr (beta ∘ base);
  p ← adaptability_term x_k t;
  let adaptability := b * p in
  g ← attr (gamma ∘ base);
  c ← collective_efficiency_term x_k t;
  let collective := g * c in
  K ← attr (n_steps ∘ base);
  dt1 ← attr (dt ∘ base);
  mret (total_cost
        + weight k K * (efficiency + adaptability + collective) * dt1).

(** The first two lines of [objective_function]: the row width is inferred
    from the length of the flat vector. *)
Definition decode_inferred (x_flat : list Qc) : M S (list (list Qc)) :=
  K ← attr (n_steps ∘ base);
  n_states ← floordiv (length x_flat) K;
  reshape x_flat K n_states.

Definition objective_function (x_flat : list Qc) : M S Qc :=
  x_trajectory ← decode_inferred x_flat;
  K ← attr (n_steps ∘ base);
  for_each (range K) (objective_step x_trajectory) 0.

(** [x.reshape(self.n_steps, n_states)], for the [n_states] that [optimize]
    takes from [x0]. *)
Definition decode_fixed (n_states : nat) (x_flat : list Qc)
    : M S (list (list Qc)) :=
  K ← attr (n_steps ∘ base);
  reshape x_flat K n_states.

(** The closure [path_constraints] of [optimize]; it captures
    [n_states]. *)
Definition path_constraints (n_states : nat) (x_flat : list Qc)
    : M S (list Qc) :=
  x_trajectory ← decode_fixed n_states x_flat;
  K ← attr (n_steps ∘ base);
  for_each (range K) (λ k constraint_values,
    dt0 ← attr (dt ∘ base);
    let t := Qc_of_nat k * dt0 in
    x_k ← getitem x_trajectory k;
    constraint_vals ← constraints x_k t;
    mret (constraint_values ++ constraint_vals)) [].

(** [lambda x: -path_constraints(x)] *)
Definition neg_path_constraints (n_states : nat) (x : list Qc)
    : M S (list Qc) :=
  v ← path_constraints n_states x; mret (Qcopp <$> v).

(** A term that returns [c] at every state and time, on every instance
    satisfying [I]; it may update the instance, keeping [I] and the
    attributes of the base class. *)
Definition constant_term (I : S → Prop) (c : Qc)
    (term : list Qc → Qc → M S Qc) : Prop :=
  ∀ x t self, I self →
    ∃ self', term x t self = (Ok c, self') ∧ I self' ∧
             base self' = base self.

(** What [scipy.optimize.minimize] is given and what it returns. *)
Record constraint_group : Type := {
  ctype : string;
  cfun : list Qc → M S (list Qc)
}.

Record solver_options : Type := { maxiter : nat; ftol : Qc }.

Record OptimizeResult : Type := {
  r_x : list Qc;
  r_success : bool;
  r_fun : Qc;
  r_nit : nat;
  r_message : string
}.

Definition minimize_t : Type :=
  (list Qc → M S Qc) → list Qc → string → list (option Qc * option Qc) →
  list constraint_group → solver_options → M S OptimizeResult.

(** [[{'type': 'ineq', 'fun': lambda x: -path_constraints(x)}]] *)
Definition solver_constraints (n_states : nat) : list constraint_group :=
  [ {| ctype := "ineq"; cfun := neg_path_constraints n_states |} ].

(** The values stored in the dictionary [optimize] returns. *)
Inductive pyval : Type :=
  | PyBool (b : bool)
  | PyArray2 (a : list (list Qc))
  | PyFloat (q : Qc)
  | PyInt (n : nat)
  | PyStr (s : string).

(** The end of [optimize]: the solver's vector is decoded and the result
    dictionary is built. *)
Definition pack_result (n_states : nat) (result : OptimizeResult)
    : M S (gmap string pyval) :=
  optimal_trajectory ← decode_fixed n_states (r_x result);
  mret (<["nit" := PyInt (r_nit result)]>
        (<["final_cost" := PyFloat (r_fun result)]>
         (<["optimal_trajectory" := PyArray2 optimal_trajectory]>
          (<["success" := PyBool (r_success result)]> ∅)))).

Definition optimize (minimize : minimize_t) (x0 : list Qc)
    (method : string) (max_iter : nat) : M S (gmap string pyval) :=
  let n_states := length x0 in
  K ← attr (n_steps ∘ base);
  let x0_trajectory := tile x0 K in
  let constraints := solver_constraints n_states in
  let bounds := replicate (n_states * K) (@None Qc, @None Qc) in
  result ← minimize objective_function x0_trajectory method bounds
             constraints
             {| maxiter := max_iter; ftol := Q2Qc (1 # 1000000) |};
  pack_result n_states result.

(** A stand-in for the external solver: it evaluates the objective once,
    at the starting point, and returns that point with the given success
    flag and message, as a solver does that stops at once. *)
Definition stopping_solver (success : bool) (message : string) : minimize_t :=
  λ objective x0 method bounds constraints options,
    f ← objective x0;
    mret {| r_x := x0; r_success := success; r_fun := f;
            r_nit := maxiter options; r_message := message |}.

(** [dict.get(key, default)] *)
Definition dict_get (d : gmap string pyval) (key : string)
    (default : pyval) : pyval :=
  match d !! key with Some v => v | None => default end.
End Optimizer.

Arguments constraint_group S : clear implicits.
Arguments OptimizeResult : clear implicits.
Arguments minimize_t S : clear implicits.

(** ** class EnergyERCRD *)

Record EnergyERCRD : Type := {
  super : ERCRDOptimizer;
  num_nodes : nat;
  line_params : list (list Qc);
  generator_costs : list (Qc * Qc * Qc);
  (** [None] while the attribute does not exist ([hasattr] is false). *)
  prev_P : option (list Qc)
}.

Definition set_prev_P (P : list Qc) (self : EnergyERCRD) : EnergyERCRD :=
  {| super := super self; num_nodes := num_nodes self;
     line_params := line_params self;
     generator_costs := generator_costs self; prev_P := Some P |}.

(** [del self.prev_P]: the instance as it was after construction. *)
Definition reset_prev_P (self : EnergyERCRD) : EnergyERCRD :=
  {| super := super self; num_nodes := num_nodes self;
     line_params := line_params self;
     generator_costs := generator_costs self; prev_P := None |}.

(** Two instances with the same attributes, [prev_P] apart. *)
Definition same_config : relation EnergyERCRD :=
  λ self self', reset_prev_P self = reset_prev_P self'.

(** [EnergyERCRD.__init__] *)
Definition EnergyERCRD_init (num_nodes : nat) (line_parameters : list (list Qc))
    (generator_costs : list (Qc * Qc * Qc))
    (alpha beta gamma time_horizon : Qc) (discretization_steps : nat)
    : outcome EnergyERCRD :=
  match ERCRDOptimizer_init alpha beta gamma time_horizon
          discretization_steps with
  | Ok o => Ok {| super := o; num_nodes := num_nodes;
                  line_params := line_parameters;
                  generator_costs := generator_costs; prev_P := None |}
  | Raise e => Raise e
  end.

Module Energy.
Definition Self : Type := EnergyERCRD.

Definition efficiency_term (x : list Qc) (t : Qc) : M Self Qc :=
  n ← attr num_nodes;
  let P := take n x in
  for_each (range n) (λ i cost,
    gc ← attr generator_costs;
    '(a, b, c) ← getitem gc i;
    P_i ← getitem P i;
    mret (cost + (a * (P_i * P_i) + b * P_i + c))) 0.

Definition adaptability_term (x : list Qc) (t : Qc) : M Self Qc :=
  n ← attr num_nodes;
  let P := take n x in
  prev ← attr prev_P;
  change ← match prev with
           | Some prev => d ← np_sub P prev; mret (np_sum (np_square d))
           | None => mret 0
           end;
  _ ← modify (set_prev_P P);
  mret change.

Definition collective_efficiency_term (x : list Qc) (t : Qc) : M Self Qc :=
  n ← attr num_nodes;
  let theta := drop n x in
  for_each (range n) (λ i angle_diff,
    n' ← attr num_nodes;
    for_each (range2 (i + 1) n') (λ j angle_diff,
      lp ← attr line_params;
      row ← getitem lp i;
      l_ij ← getitem row j;
      if decide (l_ij ≠ 0)
      then theta_i ← getitem theta i;
           theta_j ← getitem theta j;
           mret (angle_diff
                 + (theta_i - theta_j) * (theta_i - theta_j))
      else mret angle_diff) angle_diff) 0.

(** [np.sum(generator_costs, axis=0)[2]]: the column sums, then entry 2;
    the sum of an empty list is a scalar, which cannot be indexed. *)
Definition sum_axis0_item2 (gc : list (Qc * Qc * Qc)) : M Self Qc :=
  match gc with
  | [] => raise IndexError
  | _ => mret (np_sum (snd <$> gc))
  end.

Definition constraints (x : list Qc) (t : Qc) : M Self (list Qc) :=
  n ← attr num_nodes;
  let P := take n x in
  gc ← attr generator_costs;
  s ← sum_axis0_item2 gc;
  let total_power := np_sum P - s * Q2Qc (8 # 10) in
  for_each (range n) (λ i constraint_values,
    gc ← attr generator_costs;
    '(_, _, max_gen) ← getitem gc i;
    P_i ← getitem P i;
    mret (constraint_values ++ [P_i - max_gen] ++ [- P_i])) [total_power].

(** The inherited [system_dynamics] is not overridden. *)
Definition system_dynamics (x u uncertainty : list Qc) (t : Qc)
    : M Self (list Qc) := raise NotImplementedError.
End Energy.

Global Instance EnergyERCRD_model : DomainModel EnergyERCRD := {|
  base := super;
  efficiency_term := Energy.efficiency_term;
  adaptability_term := Energy.adaptability_term;
  collective_efficiency_term := Energy.collective_efficiency_term;
  system_dynamics := Energy.system_dynamics;
  constraints := Energy.constraints
|}.

(** The state layout of the energy model, [P_1..P_n, theta_1..theta_n]
    (the demo's comment on its initial state). *)
Definition state_dim (self : EnergyERCRD) : nat := 2 * num_nodes self.

(** ** A subclass with constant terms

    The model of the spec's trapezoid test: each of the three terms returns
    the attribute [value], there are no constraints. *)

Record ConstantModel : Type := {
  cm_super : ERCRDOptimizer;
  value : Qc
}.

Global Instance ConstantModel_model : DomainModel ConstantModel := {|
  base := cm_super;
  efficiency_term := λ _ _, attr value;
  adaptability_term := λ _ _, attr value;
  collective_efficiency_term := λ _ _, attr value;
  system_dynamics := λ _ _ _ _, raise NotImplementedError;
  constraints := λ _ _, mret []
|}.

Definition ConstantModel_init (value alpha beta gamma time_horizon : Qc)
    (discretization_steps : nat) : outcome ConstantModel :=
  match ERCRDOptimizer_init alpha beta gamma time_horizon
          discretization_steps with
  | Ok o => Ok {| cm_super := o; value := value |}
  | Raise e => Raise e
  end.

(** Weights that sum to one and are exact in binary floating point. *)
Definition half : Qc := Q2Qc (1 # 2).
Definition quarter : Qc := Q2Qc (1 # 4).

(** Three steps over a horizon of three, every term equal to two. *)
Definition constant_three_steps : ConstantModel :=
  {| cm_super := {| alpha := half; beta := quarter; gamma := quarter;
                    T := Q2Qc 3; n_steps := 3;
                    dt := Q2Qc 3 / Qc_of_nat 3 |};
     value := Q2Qc 2 |}.

(** A single step over a horizon of one, every term equal to one. *)
Definition constant_one_step : ConstantModel :=
  {| cm_super := {| alpha := half; beta := quarter; gamma := quarter;
                    T := 1; n_steps := 1; dt := 1 / Qc_of_nat 1 |};
     value := 1 |}.

(** ** The squared distance of the adaptability term *)

(** The squared Euclidean norm of [u - v]. *)
Definition sq_dist (u v : list Qc) : Qc :=
  np_sum (zip_with (λ a b, (a - b) * (a - b)) u v).

(** ** The residuals of the energy model, in closed form *)

(** Entry [i] of the state and the declared capacity of generator [i]. *)
Definition P_at (x : list Qc) (i : nat) : Qc := default 0 (x !! i).
Definition max_gen_at (self : EnergyERCRD) (i : nat) : Qc :=
  default 0 (snd <$> generator_costs self !! i).

(** The allocation budget: 0.8 times the sum of the declared capacities. *)
Definition budget (self : EnergyERCRD) : Qc :=
  np_sum (snd <$> generator_costs self) * Q2Qc (8 # 10).

Definition residuals (self : EnergyERCRD) (x : list Qc) : list Qc :=
  (np_sum (take (num_nodes self) x) - budget self)
  :: concat ((λ i, [P_at x i - max_gen_at self i; - P_at x i])
             <$> range (num_nodes self)).

(** Generator costs cover every node, and the state holds every [P_i]. *)
Definition well_formed (self : EnergyERCRD) (x : list Qc) : Prop :=
  (num_nodes self ≤ length x)%nat ∧
  (num_nodes self ≤ length (generator_costs self))%nat ∧
  generator_costs self ≠ [].

(** ** The configuration of [examples/energy_demo.py] *)

Definition demo_B : list (list Qc) :=
  [ [0; Q2Qc (2 # 10); Q2Qc (1 # 10)];
    [Q2Qc (2 # 10); 0; Q2Qc (15 # 100)];
    [Q2Qc (1 # 10); Q2Qc (15 # 100); 0] ].

Definition demo_generator_costs : list (Qc * Qc * Qc) :=
  [ (Q2Qc (1 # 100), Q2Qc 10, Q2Qc 100);
    (Q2Qc (2 # 100), Q2Qc 15, Q2Qc 120);
    (Q2Qc (3 # 100), Q2Qc 20, Q2Qc 90) ].

Definition demo_x0 : list Qc :=
  [Q2Qc 50; Q2Qc 60; Q2Qc 40; 0; 0; 0].

(** [EnergyERCRD(num_nodes=3, line_parameters=B, generator_costs=...,
    time_horizon=T, discretization_steps=K)] with the default weights. *)
Definition demo_model (time_horizon : Qc) (discretization_steps : nat)
    : outcome EnergyERCRD :=
  EnergyERCRD_init 3 demo_B demo_generator_costs
    default_alpha default_beta default_gamma
    time_horizon discretization_steps.

(** The demo's instance: horizon 24, 24 steps. *)
Definition demo_instance : EnergyERCRD :=
  {| super := {| alpha := default_alpha; beta := default_beta;
                 gamma := default_gamma; T := Q2Qc 24; n_steps := 24;
                 dt := Q2Qc 24 / Qc_of_nat 24 |};
     num_nodes := 3;
     line_params := demo_B;
     generator_costs := demo_generator_costs;
     prev_P := None |}.

(** ** A one-node energy model on two steps *)

Definition single_node_model : EnergyERCRD :=
  {| super := {| alpha := half; beta := quarter; gamma := quarter;
                 T := Q2Qc 2; n_steps := 2;
                 dt := Q2Qc 2 / Qc_of_nat 2 |};
     num_nodes := 1;
     line_params := [[0]];
     generator_costs := [(1, 1, Q2Qc 10)];
     prev_P := None |}.

(** ** Decidable equality, to evaluate a run on a concrete input *)

Global Instance exn_eq_dec : EqDecision exn.
Proof. solve_decision. Defined.
Global Instance outcome_eq_dec {A} `{EqDecision A} : EqDecision (outcome A).
Proof. solve_decision. Defined.
Global Instance ERCRDOptimizer_eq_dec : EqDecision ERCRDOptimizer.
Proof. solve_decision. Defined.
Global Instance EnergyERCRD_eq_dec : EqDecision EnergyERCRD.
Proof. solve_decision. Defined.
Global Instance ConstantModel_eq_dec : EqDecision ConstantModel.
Proof. solve_decision. Defined.
Global Instance pyval_eq_dec : EqDecision pyval.
Proof. solve_decision. Defined.

(** ** Closed forms of the energy model's cost terms *)

(** The cost of one generator at output [p]. *)
Definition cost_row (p : Qc) (g : Qc * Qc * Qc) : Qc :=
  let '(a, b, c) := g in a * (p * p) + b * p + c.

(** The part of [cost_row] that varies with the output. *)
Definition variable_cost_row (p : Qc) (g : Qc * Qc * Qc) : Qc :=
  let '(a, b, _) := g in a * (p * p) + b * p.

(** The sum of the generator costs over the first [num_nodes] entries. *)
Definition generation_cost (self : EnergyERCRD) (x : list Qc) : Qc :=
  np_sum (zip_with cost_row (take (num_nodes self) x)
            (take (num_nodes self) (generator_costs self))).

(** Entry [(i, j)] of the coupling matrix and angle [i] of a state. *)
Definition line_at (self : EnergyERCRD) (i j : nat) : Qc :=
  default 0 (line_params self !! i ≫= λ row, row !! j).
Definition theta_at (self : EnergyERCRD) (x : list Qc) (i : nat) : Qc :=
  default 0 (drop (num_nodes self) x !! i).

(** The contribution of the pair [(i, j)] to the collective term. *)
Definition pair_penalty (self : EnergyERCRD) (x : list Qc) (i j : nat) : Qc :=
  if decide (line_at self i j ≠ 0)
  then (theta_at self x i - theta_at self x j)
       * (theta_at self x i - theta_at self x j)
  else 0.

(** The pairs [i < j < num_nodes], row by row. *)
Definition coupling_penalty (self : EnergyERCRD) (x : list Qc) : Qc :=
  np_sum (concat ((λ i, pair_penalty self x i
                        <$> range2 (i + 1) (num_nodes self))
                  <$> range (num_nodes self))).

(** The coupling matrix has an entry for every pair [i < j < num_nodes]. *)
Definition coupling_defined (self : EnergyERCRD) : Prop :=
  ∀ i j, (i < j)%nat → (j < num_nodes self)%nat →
    is_Some (line_params self !! i ≫= λ row, row !! j).

(** The memo seen by sample [k] of a trajectory: the stored one for the
    first sample, the tracked part of the previous row afterwards. *)
Definition memo_before (self : EnergyERCRD) (rows : list (list Qc)) (k : nat)
    : option (list Qc) :=
  match k with
  | O => prev_P self
  | Datatypes.S j => take (num_nodes self) <$> rows !! j
  end.

(** The instance with its memo replaced. *)
Definition with_prev_P (memo : option (list Qc)) (self : EnergyERCRD)
    : EnergyERCRD :=
  {| super := super self; num_nodes := num_nodes self;
     line_params := line_params self;
     generator_costs := generator_costs self; prev_P := memo |}.

(** The change penalty of a state against a memo. *)
Definition change_penalty (self : EnergyERCRD) (memo : option (list Qc))
    (x : list Qc) : Qc :=
  match memo with
  | None => 0
  | Some prev => sq_dist (take (num_nodes self) x) prev
  end.

(** The weighted sum of the three terms at sample [k]. *)
Definition stage_cost (self : EnergyERCRD) (rows : list (list Qc)) (k : nat)
    : Qc :=
  let x := default [] (rows !! k) in
  alpha (super self) * generation_cost self x
  + beta (super self) * change_penalty self (memo_before self rows k) x
  + gamma (super self) * coupling_penalty self x.

(** The trapezoidal sum of the stage costs. *)
Definition energy_objective (self : EnergyERCRD) (rows : list (list Qc)) : Qc :=
  np_sum ((λ k, weight k (n_steps (super self)) * stage_cost self rows k
                * dt (super self))
          <$> range (n_steps (super self))).

(** A memo that the next subtraction accepts without broadcasting. *)
Definition memo_fits (self : EnergyERCRD) : Prop :=
  match prev_P self with
  | None => True
  | Some prev => length prev = num_nodes self
  end.

(** ** Terms given by a function of the state and the time *)

(** A term that returns [f x t] on every instance satisfying [I], and may
    update the instance, keeping [I] and the attributes of the base
    class. *)
Definition functional_term {S} `{!DomainModel S} (I : S → Prop)
    (f : list Qc → Qc → Qc) (term : list Qc → Qc → M S Qc) : Prop :=
  ∀ x t self, I self →
    ∃ self', term x t self = (Ok (f x t), self') ∧ I self' ∧
             base self' = base self.

(** A subclass whose efficiency term is the time it is called at; the other
    two terms are zero. *)
Record ClockModel : Type := { clock_super : ERCRDOptimizer }.

Global Instance ClockModel_model : DomainModel ClockModel := {|
  base := clock_super;
  efficiency_term := λ _ t, mret t;
  adaptability_term := λ _ _, mret 0;
  collective_efficiency_term := λ _ _, mret 0;
  system_dynamics := λ _ _ _ _, raise NotImplementedError;
  constraints := λ _ _, mret []
|}.

(** Four steps over a horizon of two. *)
Definition clock_four_steps : ClockModel :=
  {| clock_super := {| alpha := 1; beta := 0; gamma := 0; T := 2;
                       n_steps := 4; dt := 2 / Qc_of_nat 4 |} |}.

(** [ERCRDOptimizer()] with every keyword default. *)
Definition default_optimizer : ERCRDOptimizer :=
  {| alpha := default_alpha; beta := default_beta; gamma := default_gamma;
     T := default_time_horizon; n_steps := default_discretization_steps;
     dt := default_time_horizon / Qc_of_nat default_discretization_steps |}.

(** * Properties *)

(** ** The row-major layout *)

Section Layout.
Context {A : Type}.
Implicit Types (v : list A) (X : list (list A)).

Lemma rows_of_length rows cols v : length (rows_of rows cols v) = rows.
Proof. revert v; induction rows; intros; simpl; auto. Qed.

Lemma rows_of_width rows cols v :
  length v = (rows * cols)%nat →
  Forall (λ r, length r = cols) (rows_of rows cols v).
Proof.
  revert v; induction rows as [|r IH]; intros v Hv; simpl; constructor.
  - rewrite length_take. simpl in Hv. lia.
  - apply IH. rewrite length_drop. simpl in Hv. lia.
Qed.

Lemma rows_of_lookup rows cols v k :
  (k < rows)%nat →
  rows_of rows cols v !! k = Some (take cols (drop (k * cols) v)).
Proof.
  revert v k; induction rows as [|r IH]; intros v k Hk; [lia|].
  destruct k as [|k]; simpl.
  - by rewrite drop_0.
  - rewrite IH by lia. by rewrite drop_drop.
Qed.

Lemma concat_rows_of rows cols v :
  length v = (rows * cols)%nat → concat (rows_of rows cols v) = v.
Proof.
  revert v; induction rows as [|r IH]; intros v Hv; simpl.
  - simpl in Hv. by destruct v.
  - rewrite IH; [apply take_drop|].
    rewrite length_drop. simpl in Hv. lia.
Qed.

Lemma rows_of_concat cols X :
  Forall (λ r, length r = cols) X → rows_of (length X) cols (concat X) = X.
Proof.
  induction 1 as [|r X Hr _ IH]; simpl; [done|].
  rewrite take_app_length', drop_app_length' by done. by rewrite IH.
Qed.

Lemma length_tile (x0 : list A) reps :
  length (tile x0 reps) = (reps * length x0)%nat.
Proof. induction reps; simpl; [done|]. rewrite length_app. lia. Qed.

Lemma rows_of_tile (x0 : list A) reps :
  rows_of reps (length x0) (tile x0 reps) = replicate reps x0.
Proof.
  induction reps as [|r IH]; simpl; [done|].
  by rewrite take_app_length, drop_app_length, IH.
Qed.

Lemma flat_entry rows cols v k j :
  length v = (rows * cols)%nat → (k < rows)%nat → (j < cols)%nat →
  take cols (drop (k * cols) v) !! j = v !! (k * cols + j)%nat.
Proof. intros _ _ Hj. by rewrite lookup_take_lt, lookup_drop. Qed.
End Layout.

Section Codec.
Context {S : Type}.

(** C7. Decoding ([reshape] to [K] rows of [d] entries) and the row-major
    flatten are inverse to each other: a [K]-by-[d] trajectory is recovered
    from its flattening, a flat vector of length [K * d] is recovered from
    its decoding, and entry [k * d + j] of the flat vector is entry [j] of
    row [k]. *)
Theorem reshape_encode_bijection (K d : nat) (self : S) :
  (∀ X : list (list Qc),
     length X = K → Forall (λ r, length r = d) X →
     reshape (encode X) K d self = (Ok X, self)) ∧
  (∀ v : list Qc,
     length v = (K * d)%nat →
     ∃ X, reshape v K d self = (Ok X, self) ∧
          encode X = v ∧
          length X = K ∧ Forall (λ r, length r = d) X ∧
          ∀ k j, (k < K)%nat → (j < d)%nat →
                 X !! k ≫= (λ row, row !! j) = v !! (k * d + j)%nat).
Proof.
  split.
  - intros X HK Hd. unfold reshape, encode.
    assert (length (concat X) = (K * d)%nat) as Hlen.
    { subst K. clear -Hd. induction Hd as [|r X Hr _ IH]; simpl; [done|].
      rewrite length_app, IH, Hr. lia. }
    destruct (decide _) as [_|Hne]; [|done].
    subst K. by rewrite rows_of_concat.
  - intros v Hv. exists (rows_of K d v). unfold reshape, encode.
    destruct (decide _) as [_|Hne]; [|done].
    split_and!; auto using concat_rows_of, rows_of_length, rows_of_width.
    intros k j Hk Hj. rewrite rows_of_lookup by done. simpl.
    by eapply flat_entry.
Qed.

(** C8. The initial guess [np.tile(x0, K)] has length [K * d] for
    [d = len(x0)], decodes without error, and every row [k < K] of the
    decoded trajectory is [x0] itself. *)
Theorem tile_rows_are_x0 (x0 : list Qc) (K : nat) (self : S) :
  length (tile x0 K) = (K * length x0)%nat ∧
  ∃ X, reshape (tile x0 K) K (length x0) self = (Ok X, self) ∧
       length X = K ∧
       ∀ k, (k < K)%nat → X !! k = Some x0.
Proof.
  split; [apply length_tile|].
  exists (replicate K x0). unfold reshape.
  rewrite length_tile. destruct (decide _) as [_|Hne]; [|done].
  rewrite rows_of_tile. split_and!; [done|apply length_replicate|].
  intros k Hk. by apply lookup_replicate_2.
Qed.
End Codec.

(** ** Reasoning about method bodies *)

Section Monad.
Context {S : Type}.

Lemma run_bind {A B} (m : M S A) (f : A → M S B) (self : S) :
  (m ≫= f) self =
  match m self with
  | (Ok a, self') => f a self'
  | (Raise e, self') => (Raise e, self')
  end.
Proof. reflexivity. Qed.

Lemma run_bind_ok {A B} (m : M S A) (f : A → M S B) self a self' :
  m self = (Ok a, self') → (m ≫= f) self = f a self'.
Proof. intros H. by rewrite run_bind, H. Qed.

Lemma run_attr {A B} (g : S → A) (f : A → M S B) self :
  (attr g ≫= f) self = f (g self) self.
Proof. reflexivity. Qed.

Lemma run_getitem {A} (a : list A) i v (self : S) :
  a !! i = Some v → getitem a i self = (Ok v, self).
Proof. intros H. unfold getitem. by rewrite H. Qed.

Section Keeps.
Context (R : relation S) `{!Reflexive R, !Transitive R}.

Lemma preserves_keeps {A} (m : M S A) : preserves_self m → keeps R m.
Proof. intros Hm self. rewrite <- (Hm self). reflexivity. Qed.

Lemma keeps_ret {A} (a : A) : keeps R (mret a : M S A).
Proof. intros self. simpl. reflexivity. Qed.

Lemma keeps_raise {A} e : keeps R (raise e : M S A).
Proof. intros self. simpl. reflexivity. Qed.

Lemma keeps_attr {A} (g : S → A) : keeps R (attr g).
Proof. intros self. simpl. reflexivity. Qed.

Lemma keeps_getitem {A} (a : list A) i : keeps R (getitem a i : M S A).
Proof. intros self. unfold getitem. destruct (a !! i); simpl; reflexivity. Qed.

Lemma keeps_floordiv a b : keeps R (floordiv a b : M S nat).
Proof.
  intros self. unfold floordiv. destruct (decide _); simpl; reflexivity.
Qed.

Lemma keeps_reshape {A} (v : list A) rows cols :
  keeps R (reshape v rows cols : M S (list (list A))).
Proof.
  intros self. unfold reshape. destruct (decide _); simpl; reflexivity.
Qed.

Lemma keeps_np_sub a b : keeps R (np_sub a b : M S (list Qc)).
Proof.
  intros self. unfold np_sub. destruct (decide _); [simpl; reflexivity|].
  destruct a as [|? [|? ?]], b as [|? [|? ?]]; simpl; reflexivity.
Qed.

Lemma keeps_modify (f : S → S) : (∀ self, R self (f self)) → keeps R (modify f).
Proof. intros Hf self. apply Hf. Qed.

Lemma keeps_bind {A B} (m : M S A) (f : A → M S B) :
  keeps R m → (∀ a, keeps R (f a)) → keeps R (m ≫= f).
Proof.
  intros Hm Hf self. rewrite run_bind. specialize (Hm self).
  destruct (m self) as [[a|e] self']; simpl in *; [|done].
  etrans; [exact Hm|apply Hf].
Qed.

Lemma keeps_for_each {A B} (xs : list A) (body : A → B → M S B) acc :
  (∀ x acc, keeps R (body x acc)) → keeps R (for_each xs body acc).
Proof.
  intros Hbody. revert acc.
  induction xs as [|x xs IH]; intros acc; simpl.
  - apply keeps_ret.
  - apply keeps_bind; auto.
Qed.
End Keeps.

(** A loop whose every iteration returns, with an invariant [J] over the
    number of completed iterations, the accumulator and the instance. *)
Lemma for_each_inv {A B} (J : nat → B → S → Prop)
    (xs : list A) (body : A → B → M S B) acc self :
  (∀ i x acc self, xs !! i = Some x → J i acc self →
     ∃ acc' self', body x acc self = (Ok acc', self') ∧
                   J (Datatypes.S i) acc' self') →
  J 0%nat acc self →
  ∃ r self', for_each xs body acc self = (Ok r, self') ∧
             J (length xs) r self'.
Proof.
  revert J acc self.
  induction xs as [|x xs IH]; intros J acc self Hstep H0; simpl.
  - by exists acc, self.
  - destruct (Hstep 0%nat x acc self eq_refl H0) as (acc1 & self1 & Hx & H1).
    rewrite (run_bind_ok _ _ _ _ _ Hx).
    apply (IH (λ i, J (Datatypes.S i))); [|done].
    intros i y acc2 self2 Hy HJ. by apply (Hstep (Datatypes.S i)).
Qed.

(** A quantity that every returning iteration increases by [c]. *)
Lemma for_each_measure {A B} (f : B → nat) (c : nat)
    (xs : list A) (body : A → B → M S B) acc self r self' :
  (∀ x acc self r self', body x acc self = (Ok r, self') →
     f r = (f acc + c)%nat) →
  for_each xs body acc self = (Ok r, self') →
  f r = (f acc + c * length xs)%nat.
Proof.
  intros Hbody. revert acc self.
  induction xs as [|x xs IH]; intros acc self Hrun; simpl in Hrun.
  - injection Hrun as -> _. simpl. lia.
  - rewrite run_bind in Hrun.
    destruct (body x acc self) as [[acc1|e] self1] eqn:Hx; [|done].
    apply IH in Hrun. rewrite Hrun, (Hbody _ _ _ _ _ Hx). simpl. lia.
Qed.
End Monad.

(** Walks a method body made of binds, loops and the primitives above. *)
Ltac frame_step :=
  first
    [ apply keeps_ret; apply _ | apply keeps_raise; apply _
    | apply keeps_attr; apply _ | apply keeps_getitem; apply _
    | apply keeps_floordiv; apply _ | apply keeps_reshape; apply _
    | apply keeps_np_sub; apply _
    | apply keeps_bind; [apply _ | idtac | intros]
    | apply keeps_for_each; [apply _ | apply _ | intros]
    | match goal with
      | |- keeps _ (modify _) => apply keeps_modify; intros
      | |- keeps _ (match ?p with _ => _ end) => destruct p
      | |- keeps _ (if ?c then _ else _) => destruct c
      end ].
Ltac frame := repeat frame_step.

(** ** Sums of rationals *)

Lemma np_sum_nil : np_sum [] = 0.
Proof. reflexivity. Qed.

Lemma np_sum_cons (a : Qc) (v : list Qc) : np_sum (a :: v) = a + np_sum v.
Proof. reflexivity. Qed.

Lemma np_sum_app (u v : list Qc) : np_sum (u ++ v) = np_sum u + np_sum v.
Proof.
  induction u as [|a u IH].
  - by rewrite app_nil_l, np_sum_nil, Qcplus_0_l.
  - rewrite <- app_comm_cons, !np_sum_cons, IH. ring.
Qed.

Lemma np_sum_singleton (a : Qc) : np_sum [a] = a.
Proof. rewrite np_sum_cons, np_sum_nil. ring. Qed.

Lemma Qc_of_nat_S (n : nat) : Qc_of_nat (Datatypes.S n) = Qc_of_nat n + 1.
Proof.
  unfold Qc_of_nat. by rewrite Nat2Z.inj_succ, <- Z.add_1_r, Z2Qc_inj_add.
Qed.

(** ** Trapezoidal aggregation *)

Lemma weight_sum_S K i :
  weight_sum K (Datatypes.S i) = weight_sum K i + weight i K.
Proof.
  unfold weight_sum, range.
  by rewrite seq_S, fmap_app, np_sum_app, list_fmap_singleton, np_sum_singleton.
Qed.

Lemma weight_first K : weight 0 K = Q2Qc (1 # 2).
Proof. unfold weight. destruct (decide _) as [_|Hn]; [done|]. tauto. Qed.

Lemma weight_interior k K :
  (0 < k)%nat → (k + 1 < K)%nat → weight k K = 1.
Proof.
  intros H0 H1. unfold weight. destruct (decide _) as [[?|?]|_]; [lia..|done].
Qed.

Lemma weight_sum_below K i :
  (0 < i)%nat → (i < K)%nat → weight_sum K i = Qc_of_nat i - Q2Qc (1 # 2).
Proof.
  induction i as [|i IH]; intros Hpos Hlt; [lia|].
  rewrite weight_sum_S, Qc_of_nat_S.
  destruct i as [|i].
  - rewrite weight_first. by apply Qc_is_canon.
  - rewrite IH by lia. rewrite weight_interior by lia. ring.
Qed.

(** Endpoints count half and interior samples count fully, so [K >= 2]
    samples weigh [K - 1] in total; a single sample is both endpoints at
    once and weighs one half. *)
Lemma weight_sum_total K :
  K ≠ 0%nat →
  weight_sum K K =
  if decide (K = 1)%nat then Q2Qc (1 # 2) else Qc_of_nat K - 1.
Proof.
  destruct K as [|[|K]]; intros HK.
  - done.
  - by apply Qc_is_canon.
  - destruct (decide _) as [?|_]; [lia|].
    rewrite weight_sum_S, weight_sum_below by lia.
    replace (weight (Datatypes.S K) (Datatypes.S (Datatypes.S K)))
      with (Q2Qc (1 # 2)).
    + rewrite (Qc_of_nat_S (Datatypes.S K)). ring.
    + unfold weight. destruct (decide _) as [_|Hn]; [done|].
      exfalso. apply Hn. right. lia.
Qed.

(** ** Decoding the flat vector *)

Section Decode.
Context {S : Type} `{!DomainModel S}.

Lemma decode_inferred_ok (self : S) (x_flat : list Qc) (d : nat) :
  n_steps (base self) ≠ 0%nat →
  length x_flat = (n_steps (base self) * d)%nat →
  decode_inferred x_flat self
    = (Ok (rows_of (n_steps (base self)) d x_flat), self).
Proof.
  intros HK Hlen. unfold decode_inferred. rewrite run_attr. simpl.
  unfold floordiv. destruct (decide _) as [|_]; [done|].
  rewrite run_bind. unfold mret at 1, M_ret at 1.
  replace (length x_flat / n_steps (base self))%nat with d
    by (rewrite Hlen, Nat.mul_comm; symmetry; by apply Nat.div_mul).
  unfold reshape. by destruct (decide _).
Qed.

Lemma decode_inferred_raises (self : S) (x_flat : list Qc) :
  n_steps (base self) ≠ 0%nat →
  (length x_flat `mod` n_steps (base self) ≠ 0)%nat →
  decode_inferred x_flat self = (Raise ValueError, self).
Proof.
  intros HK Hmod. unfold decode_inferred. rewrite run_attr. simpl.
  unfold floordiv. destruct (decide _) as [|_]; [done|].
  rewrite run_bind. unfold mret at 1, M_ret at 1.
  unfold reshape. destruct (decide _) as [Heq|_]; [|done].
  exfalso. apply Hmod. rewrite Heq, Nat.mul_comm. by apply Nat.Div0.mod_mul.
Qed.

Lemma decode_fixed_ok (self : S) (n_states : nat) (x_flat : list Qc) :
  length x_flat = (n_steps (base self) * n_states)%nat →
  decode_fixed n_states x_flat self
    = (Ok (rows_of (n_steps (base self)) n_states x_flat), self).
Proof.
  intros Hlen. unfold decode_fixed. rewrite run_attr. simpl.
  unfold reshape. by destruct (decide _).
Qed.

Lemma decode_fixed_raises (self : S) (n_states : nat) (x_flat : list Qc) :
  length x_flat ≠ (n_steps (base self) * n_states)%nat →
  decode_fixed n_states x_flat self = (Raise ValueError, self).
Proof.
  intros Hlen. unfold decode_fixed. rewrite run_attr. simpl.
  unfold reshape. by destruct (decide _).
Qed.

(** C2 (amended). With [K] the step count: the decoding in
    [path_constraints] and of the solver's result uses the width
    [n_states = len(x0)] and raises [ValueError], touching nothing, exactly
    when the length is not [K * n_states]; the decoding in
    [objective_function] infers the width as [len // K] and raises
    [ValueError] exactly when the length is not a multiple of [K], so a
    vector of any length [K * d'] is decoded as [K] rows of [d'] entries.
    A successful decoding never truncates or pads: flattening its rows gives
    the vector back. *)
Theorem decode_shape_check (self : S) (x_flat : list Qc) (n_states : nat) :
  n_steps (base self) ≠ 0%nat →
  (length x_flat ≠ (n_steps (base self) * n_states)%nat →
     decode_fixed n_states x_flat self = (Raise ValueError, self) ∧
     path_constraints n_states x_flat self = (Raise ValueError, self)) ∧
  (length x_flat = (n_steps (base self) * n_states)%nat →
     ∃ X, decode_fixed n_states x_flat self = (Ok X, self) ∧
          encode X = x_flat ∧ length X = n_steps (base self) ∧
          Forall (λ r, length r = n_states) X) ∧
  ((length x_flat `mod` n_steps (base self))%nat ≠ 0%nat →
     decode_inferred x_flat self = (Raise ValueError, self) ∧
     objective_function x_flat self = (Raise ValueError, self)) ∧
  (∀ d', length x_flat = (n_steps (base self) * d')%nat →
     ∃ X, decode_inferred x_flat self = (Ok X, self) ∧
          encode X = x_flat ∧ length X = n_steps (base self) ∧
          Forall (λ r, length r = d') X).
Proof.
  intros HK. split_and!.
  - intros Hne. pose proof (decode_fixed_raises self n_states x_flat Hne) as E.
    split; [done|]. unfold path_constraints. by rewrite run_bind, E.
  - intros Hlen. eexists. split; [by apply decode_fixed_ok|].
    unfold encode.
    auto using concat_rows_of, rows_of_length, rows_of_width.
  - intros Hmod. pose proof (decode_inferred_raises self x_flat HK Hmod) as E.
    split; [done|]. unfold objective_function. by rewrite run_bind, E.
  - intros d' Hlen. eexists. split; [by apply decode_inferred_ok|].
    unfold encode.
    auto using concat_rows_of, rows_of_length, rows_of_width.
Qed.
End Decode.

Lemma decode_shape_check_witness :
  decode_fixed 2 [1; 2; 1] single_node_model
    = (Raise ValueError, single_node_model) ∧
  objective_function [1; 2; 1] single_node_model
    = (Raise ValueError, single_node_model).
Proof.
  destruct (decode_shape_check single_node_model [1; 2; 1] 2)
    as (Hfixed & _ & Hinferred & _).
  - simpl. lia.
  - split.
    + apply Hfixed. simpl. lia.
    + apply Hinferred. simpl. lia.
Defined.

(** C2, as stated, fails in [objective_function]: the one-node model has
    state dimension 2 and two steps, yet a flat vector of length 2 (not 4)
    is decoded as two rows of one entry and the objective is returned. *)
Lemma objective_accepts_other_width_counterexample :
  EnergyERCRD_init 1 [[0]] [(1, 1, Q2Qc 10)] half quarter quarter (Q2Qc 2) 2
    = Ok single_node_model ∧
  length [1; 2 : Qc] ≠ (n_steps (base single_node_model)
                        * state_dim single_node_model)%nat ∧
  decode_inferred [1; 2] single_node_model
    = (Ok [[1]; [2]], single_node_model) ∧
  objective_function [1; 2] single_node_model
    = (Ok (Q2Qc (7125 # 1000)), set_prev_P [2] single_node_model).
Proof.
  split_and!; [reflexivity|simpl; lia|compute_done|compute_done].
Qed.

Section Trapezoid.
Context {S : Type} `{!DomainModel S}.

Lemma objective_step_constant I c X k total self :
  constant_term I c efficiency_term →
  constant_term I c adaptability_term →
  constant_term I c collective_efficiency_term →
  alpha (base self) + beta (base self) + gamma (base self) = 1 →
  (k < length X)%nat →
  I self →
  ∃ self', objective_step X k total self =
             (Ok (total + weight k (n_steps (base self)) * c * dt (base self)),
              self') ∧
           I self' ∧ base self' = base self.
Proof.
  intros He Ha Hc Hsum Hk HI. unfold objective_step.
  destruct (lookup_lt_is_Some_2 X k Hk) as [x_k Hx].
  rewrite run_attr. rewrite (run_bind_ok _ _ _ _ _ (run_getitem _ _ _ _ Hx)).
  rewrite run_attr.
  destruct (He x_k (Qc_of_nat k * (dt ∘ base) self) self HI)
    as (s1 & E1 & I1 & B1).
  rewrite (run_bind_ok _ _ _ _ _ E1), run_attr.
  destruct (Ha x_k (Qc_of_nat k * (dt ∘ base) self) s1 I1)
    as (s2 & E2 & I2 & B2).
  rewrite (run_bind_ok _ _ _ _ _ E2), run_attr.
  destruct (Hc x_k (Qc_of_nat k * (dt ∘ base) self) s2 I2)
    as (s3 & E3 & I3 & B3).
  rewrite (run_bind_ok _ _ _ _ _ E3), !run_attr.
  exists s3. simpl. rewrite B3, B2, B1. split; [|done].
  unfold mret, M_ret. do 2 f_equal.
  replace (alpha (base self) * c + beta (base self) * c
           + gamma (base self) * c)
    with ((alpha (base self) + beta (base self) + gamma (base self)) * c)
    by ring.
  rewrite Hsum. ring.
Qed.

(** C1 (amended). For a model whose three terms are the constant [c] (on
    the instances satisfying an invariant [I] that the terms keep),
    weights summing to one, [K] steps and [dt = T / K], the objective of
    any flat vector of length [K * d] is the sum over the samples of
    [weight * c * dt], the weight being one half at [k = 0] and
    [k = K - 1] and one elsewhere; this is [c * dt * (K - 1)] for
    [K >= 2], and [c * dt / 2] for [K = 1]. *)
Theorem objective_constant_terms (I : S → Prop) (c a b g T0 : Qc)
    (K d : nat) (x_flat : list Qc) (self : S) :
  ERCRDOptimizer_init a b g T0 K = Ok (base self) →
  a + b + g = 1 →
  I self →
  constant_term I c efficiency_term →
  constant_term I c adaptability_term →
  constant_term I c collective_efficiency_term →
  length x_flat = (K * d)%nat →
  ∃ self',
    objective_function x_flat self =
      (Ok (np_sum ((λ k, weight k K * c * (T0 / Qc_of_nat K)) <$> range K)),
       self') ∧
    np_sum ((λ k, weight k K * c * (T0 / Qc_of_nat K)) <$> range K) =
      c * (T0 / Qc_of_nat K)
      * (if decide (K = 1)%nat then Q2Qc (1 # 2) else Qc_of_nat K - 1).
Proof.
  intros Hinit Hsum HI He Ha Hc Hlen.
  unfold ERCRDOptimizer_init in Hinit.
  destruct (decide (K = 0)%nat) as [|HK]; [done|].
  injection Hinit as Hbase.
  assert (n_steps (base self) = K) as HnK by (by rewrite <- Hbase).
  assert (dt (base self) = T0 / Qc_of_nat K) as Hdt by (by rewrite <- Hbase).
  assert (alpha (base self) + beta (base self) + gamma (base self) = 1)
    as Hsum' by (by rewrite <- Hbase).
  assert (∀ i, np_sum ((λ k, weight k K * c * (T0 / Qc_of_nat K)) <$> range i)
               = c * (T0 / Qc_of_nat K) * weight_sum K i) as Hclosed.
  { induction i as [|i IH].
    - unfold weight_sum, range. cbn [seq fmap list_fmap].
      rewrite np_sum_nil. ring.
    - rewrite weight_sum_S. unfold range in *.
      rewrite seq_S, fmap_app, np_sum_app, IH, list_fmap_singleton,
        np_sum_singleton.
      cbn [Nat.add]. ring. }
  unfold objective_function.
  rewrite (run_bind_ok _ _ _ _ _
             (decode_inferred_ok self x_flat d ltac:(by rewrite HnK)
                ltac:(by rewrite HnK))).
  rewrite run_attr. simpl. rewrite HnK.
  destruct (for_each_inv
    (λ i acc s, I s ∧ base s = base self ∧
                acc = c * (T0 / Qc_of_nat K) * weight_sum K i)
    (range K) (objective_step (rows_of K d x_flat)) 0 self)
    as (r & self' & Hrun & _ & _ & Hr).
  - intros i k acc s Hk (HIs & Hb & Hacc).
    apply lookup_seq in Hk as [-> Hi]. simpl.
    destruct (objective_step_constant I c (rows_of K d x_flat) i acc s)
      as (s' & Hstep & HIs' & Hb'); auto.
    { by rewrite Hb. }
    { by rewrite rows_of_length. }
    exists (acc + weight i (n_steps (base s)) * c * dt (base s)), s'.
    split; [done|]. split; [done|]. split; [congruence|].
    rewrite Hb, HnK, Hdt, weight_sum_S, Hacc. ring.
  - split; [done|]. split; [done|]. unfold weight_sum, range.
    cbn [seq fmap list_fmap]. rewrite np_sum_nil. ring.
  - exists self'. unfold range in Hr. rewrite length_seq in Hr.
    by rewrite Hrun, Hr, Hclosed, weight_sum_total.
Qed.
End Trapezoid.

(** *** Concrete runs of the constant model *)

Lemma constant_model_terms (c : Qc) :
  constant_term (λ self : ConstantModel, value self = c) c efficiency_term ∧
  constant_term (λ self : ConstantModel, value self = c) c adaptability_term ∧
  constant_term (λ self : ConstantModel, value self = c) c
    collective_efficiency_term.
Proof.
  split_and!; intros x t self Hc; exists self; cbn; unfold attr;
    by rewrite Hc.
Qed.

Lemma objective_constant_terms_witness :
  ∃ self',
    objective_function (replicate 6 0) constant_three_steps =
      (Ok (np_sum ((λ k, weight k 3 * Q2Qc 2 * (Q2Qc 3 / Qc_of_nat 3))
                   <$> range 3)), self') ∧
    np_sum ((λ k, weight k 3 * Q2Qc 2 * (Q2Qc 3 / Qc_of_nat 3)) <$> range 3) =
      Q2Qc 2 * (Q2Qc 3 / Qc_of_nat 3)
      * (if decide (3 = 1)%nat then Q2Qc (1 # 2) else Qc_of_nat 3 - 1).
Proof.
  apply (objective_constant_terms (λ self, value self = Q2Qc 2) (Q2Qc 2)
           half quarter quarter (Q2Qc 3) 3 2).
  - reflexivity.
  - by apply Qc_is_canon.
  - reflexivity.
  - apply constant_model_terms.
  - apply constant_model_terms.
  - apply constant_model_terms.
  - reflexivity.
Defined.

(** C1, as stated, fails for a single step: the one sample is both
    endpoints, is weighted one half, and the objective is [c * dt / 2]
    where the claim gives [c * dt * (K - 1) = 0]. *)
Lemma objective_single_sample_counterexample :
  ERCRDOptimizer_init half quarter quarter 1 1
    = Ok (base constant_one_step) ∧
  half + quarter + quarter = 1 ∧
  value constant_one_step = 1 ∧
  (constant_term (λ self : ConstantModel, value self = 1) 1 efficiency_term ∧
   constant_term (λ self : ConstantModel, value self = 1) 1
     adaptability_term ∧
   constant_term (λ self : ConstantModel, value self = 1) 1
     collective_efficiency_term) ∧
  length [0 : Qc] = (1 * 1)%nat ∧
  objective_function [0] constant_one_step
    = (Ok (Q2Qc (1 # 2)), constant_one_step) ∧
  Q2Qc (1 # 2) ≠ 1 * (1 / Qc_of_nat 1) * (Qc_of_nat 1 - 1).
Proof.
  split_and!;
    [reflexivity|by apply Qc_is_canon|reflexivity|apply constant_model_terms..
    |reflexivity|compute_done|compute_done].
Qed.

(** ** The energy model: what each method reads and writes *)

Lemma efficiency_term_pure x t : preserves_self (Energy.efficiency_term x t).
Proof. unfold preserves_self, Energy.efficiency_term. frame. Qed.

Lemma collective_efficiency_term_pure x t :
  preserves_self (Energy.collective_efficiency_term x t).
Proof. unfold preserves_self, Energy.collective_efficiency_term. frame. Qed.

Lemma constraints_pure x t : preserves_self (Energy.constraints x t).
Proof.
  unfold preserves_self, Energy.constraints, Energy.sum_axis0_item2. frame.
Qed.

Global Instance same_config_equiv : Equivalence same_config.
Proof.
  unfold same_config. split.
  - by intros s.
  - by intros s s'.
  - intros s1 s2 s3 H12 H23. by rewrite H12.
Qed.

Lemma adaptability_term_keeps_config x t :
  keeps same_config (Energy.adaptability_term x t).
Proof. unfold Energy.adaptability_term. frame. reflexivity. Qed.

(** What a call of [adaptability_term] does, case by case. *)
Lemma adaptability_term_run (x : list Qc) (t : Qc) (self : EnergyERCRD) :
  Energy.adaptability_term x t self =
  let P := take (num_nodes self) x in
  match prev_P self with
  | None => (Ok 0, set_prev_P P self)
  | Some prev =>
      match np_sub P prev self with
      | (Ok d, _) => (Ok (np_sum (np_square d)), set_prev_P P self)
      | (Raise e, _) => (Raise e, self)
      end
  end.
Proof.
  unfold Energy.adaptability_term. rewrite !run_attr.
  destruct (prev_P self) as [prev|]; [|done].
  rewrite !run_bind.
  pose proof (keeps_np_sub eq (take (num_nodes self) x) prev self) as Hs.
  destruct (np_sub _ _ self) as [[d|e] s]; simpl in Hs; by subst.
Qed.

Lemma constraints_length x t self rs self' :
  Energy.constraints x t self = (Ok rs, self') →
  length rs = (2 * num_nodes self + 1)%nat.
Proof.
  unfold Energy.constraints. rewrite !run_attr, run_bind.
  destruct (Energy.sum_axis0_item2 _ self) as [[s|e] s1] eqn:Hs; [|done].
  assert (s1 = self) as ->.
  { unfold Energy.sum_axis0_item2 in Hs.
    destruct (generator_costs self); by inversion Hs. }
  intros Hrun.
  apply (for_each_measure length 2) in Hrun.
  - rewrite Hrun. unfold range. rewrite length_seq. simpl. lia.
  - clear. intros i acc s r s'. rewrite run_attr.
    unfold getitem. destruct (generator_costs s !! i) as [[[a b] mx]|]; [|done].
    rewrite run_bind. unfold mret at 1, M_ret at 1.
    destruct (take _ x !! i); [|done].
    rewrite run_bind. unfold mret, M_ret.
    intros [= <- _]. rewrite !length_app. simpl. lia.
Qed.

Lemma constraints_run x t self :
  well_formed self x →
  Energy.constraints x t self = (Ok (residuals self x), self).
Proof.
  intros (Hx & Hgc & Hne). unfold Energy.constraints.
  rewrite !run_attr. unfold Energy.sum_axis0_item2 at 1.
  destruct (generator_costs self) as [|g0 gc] eqn:Egc; [done|].
  rewrite <- Egc in *. rewrite run_bind. unfold mret at 1, M_ret at 1.
  destruct (for_each_inv
    (λ i acc s, s = self ∧
       acc = (np_sum (take (num_nodes self) x) - budget self)
             :: concat ((λ i, [P_at x i - max_gen_at self i; - P_at x i])
                        <$> range i))
    (range (num_nodes self))
    (λ i constraint_values,
       gc ← attr generator_costs;
       '(_, _, max_gen) ← getitem gc i;
       P_i ← getitem (take (num_nodes self) x) i;
       mret (constraint_values ++ [P_i - max_gen] ++ [- P_i]))
    [np_sum (take (num_nodes self) x)
     - np_sum (snd <$> generator_costs self) * Q2Qc (8 # 10)] self)
    as (r & s' & Hrun & -> & Hr).
  - intros i k acc s Hk [-> ->]. apply lookup_seq in Hk as [-> Hi].
    cbn [Nat.add]. rewrite run_attr.
    destruct (lookup_lt_is_Some_2 (generator_costs self) i ltac:(lia))
      as [[[a b] mx] Hg].
    destruct (lookup_lt_is_Some_2 x i ltac:(lia)) as [p Hp].
    rewrite (run_bind_ok _ _ _ _ _ (run_getitem _ _ _ _ Hg)).
    assert (take (num_nodes self) x !! i = Some p) as Hp'
      by (by rewrite lookup_take_lt).
    rewrite (run_bind_ok _ _ _ _ _ (run_getitem _ _ _ _ Hp')).
    eexists _, self. split; [reflexivity|]. split; [done|].
    unfold range. rewrite seq_S, fmap_app, concat_app. simpl.
    unfold P_at, max_gen_at. by rewrite Hp, Hg.
  - done.
  - rewrite Hrun, Hr. unfold residuals, range. by rewrite length_seq.
Qed.

(** ** Signs of the residuals *)

Lemma Qc_sub_nonpos (a b : Qc) : a ≤ b → a - b ≤ 0.
Proof.
  intros H. apply (Qcplus_le_mono_r _ _ b).
  by replace (a - b + b) with a by ring; replace (0 + b) with b by ring.
Qed.

Lemma Qc_sub_pos (a b : Qc) : b < a → 0 < a - b.
Proof.
  intros H. apply (Qcplus_lt_mono_r _ _ b).
  by replace (a - b + b) with a by ring; replace (0 + b) with b by ring.
Qed.

Lemma Qc_opp_nonpos (a : Qc) : 0 ≤ a → - a ≤ 0.
Proof.
  intros H. apply (Qcplus_le_mono_r _ _ a).
  by replace (- a + a) with 0 by ring; replace (0 + a) with a by ring.
Qed.

Lemma Qc_opp_nonneg_iff (a : Qc) : 0 ≤ - a ↔ a ≤ 0.
Proof.
  rewrite (Qcplus_le_mono_r 0 (- a) a).
  by replace (- a + a) with 0 by ring; replace (0 + a) with a by ring.
Qed.

Lemma Forall_concat_fmap {A B} (P : B → Prop) (f : A → list B) (l : list A) :
  (∀ a, a ∈ l → Forall P (f a)) → Forall P (concat (f <$> l)).
Proof.
  induction l as [|a l IH]; intros H; cbn [fmap list_fmap concat].
  - constructor.
  - apply Forall_app. split.
    + apply H. by left.
    + apply IH. intros b Hb. apply H. by right.
Qed.

Lemma Exists_concat_fmap {A B} (P : B → Prop) (f : A → list B) (l : list A) a :
  a ∈ l → Exists P (f a) → Exists P (concat (f <$> l)).
Proof.
  induction 1 as [a l|a b l _ IH]; intros H; cbn [fmap list_fmap concat];
    apply Exists_app; auto.
Qed.

Lemma residuals_upper_violation self x i :
  (i < num_nodes self)%nat → max_gen_at self i < P_at x i →
  Exists (λ r, 0 < r) (residuals self x).
Proof.
  intros Hi Hover. unfold residuals. apply Exists_cons_tl.
  apply (Exists_concat_fmap _ _ _ i).
  - unfold range. apply elem_of_seq. lia.
  - apply Exists_cons_hd. by apply Qc_sub_pos.
Qed.

Lemma residuals_feasible self x :
  (∀ i, (i < num_nodes self)%nat → 0 ≤ P_at x i ≤ max_gen_at self i) →
  np_sum (take (num_nodes self) x) ≤ budget self →
  Forall (λ r, r ≤ 0) (residuals self x).
Proof.
  intros Hbox Hbudget. unfold residuals. constructor.
  - by apply Qc_sub_nonpos.
  - apply Forall_concat_fmap. intros i Hi.
    unfold range in Hi. apply elem_of_seq in Hi.
    destruct (Hbox i ltac:(lia)) as [Hlo Hhi].
    repeat constructor; [by apply Qc_sub_nonpos|by apply Qc_opp_nonpos].
Qed.

Lemma negated_residuals_sign (rs : list Qc) :
  Forall (λ y, 0 ≤ y) (Qcopp <$> rs) ↔ Forall (λ r, r ≤ 0) rs.
Proof.
  rewrite Forall_fmap. apply Forall_proper; [|done].
  intros r. apply Qc_opp_nonneg_iff.
Qed.

(** ** Stacking the residuals over the trajectory *)

Lemma path_constraints_run (self : EnergyERCRD) (n_states : nat) (v : list Qc) :
  length v = (n_steps (base self) * n_states)%nat →
  (num_nodes self ≤ n_states)%nat →
  (num_nodes self ≤ length (generator_costs self))%nat →
  generator_costs self ≠ [] →
  path_constraints n_states v self =
    (Ok (concat (residuals self
                 <$> rows_of (n_steps (base self)) n_states v)), self).
Proof.
  intros Hlen Hn Hgc Hne. unfold path_constraints.
  rewrite (run_bind_ok _ _ _ _ _ (decode_fixed_ok self n_states v Hlen)).
  rewrite run_attr.
  set (rows := rows_of (n_steps (base self)) n_states v).
  destruct (for_each_inv
    (λ i acc s, s = self ∧ acc = concat (residuals self <$> take i rows))
    (range ((n_steps ∘ base) self))
    (λ k constraint_values,
       dt0 ← attr (dt ∘ base);
       x_k ← getitem rows k;
       constraint_vals ← constraints x_k (Qc_of_nat k * dt0);
       mret (constraint_values ++ constraint_vals)) [] self)
    as (r & s' & Hrun & -> & Hr).
  - intros i k acc s Hk [-> ->]. apply lookup_seq in Hk as [-> Hi].
    cbn [Nat.add]. rewrite run_attr.
    assert (is_Some (rows !! i)) as [row Hrow].
    { apply lookup_lt_is_Some_2. unfold rows. by rewrite rows_of_length. }
    rewrite (run_bind_ok _ _ _ _ _ (run_getitem _ _ _ _ Hrow)).
    assert (length row = n_states) as Hrowlen.
    { pose proof (rows_of_width _ _ _ Hlen) as Hw.
      rewrite Forall_lookup in Hw. by apply (Hw i). }
    assert (constraints row (Qc_of_nat i * (dt ∘ base) self) self
            = (Ok (residuals self row), self)) as Hc.
    { apply constraints_run. split_and!; [lia|done|done]. }
    rewrite (run_bind_ok _ _ _ _ _ Hc).
    eexists _, self. split; [reflexivity|]. split; [done|].
    rewrite (take_S_r _ _ _ Hrow), fmap_app, concat_app.
    cbn [fmap list_fmap concat]. by rewrite app_nil_r.
  - done.
  - rewrite Hrun, Hr. unfold range. rewrite length_seq.
    rewrite take_ge; [done|]. unfold rows. by rewrite rows_of_length.
Qed.

Section SolverBoundary.
Context {S : Type} `{!DomainModel S}.

(** The function given to the solver returns the negated stacked
    residuals, and raises whenever stacking raises. *)
Lemma neg_path_constraints_run (n_states : nat) (v : list Qc) (self : S) :
  neg_path_constraints n_states v self =
  match path_constraints n_states v self with
  | (Ok stacked, self') => (Ok (Qcopp <$> stacked), self')
  | (Raise e, self') => (Raise e, self')
  end.
Proof. unfold neg_path_constraints. by rewrite run_bind. Qed.
End SolverBoundary.

(** C4. On a well-formed input the energy model's [constraints] returns
    its residuals; a [P_i] above its declared capacity makes one of them
    strictly positive; a state with every [P_i] in [[0, capacity]] and total
    allocation within the budget makes all of them non-positive. The one
    constraint group is tagged [ineq] and its function returns exactly the
    negation of the residuals stacked timestep by timestep, so that it is
    non-negative exactly where every residual is non-positive; this group
    is what [optimize] passes to the solver. *)
Theorem constraints_sign_convention (self : EnergyERCRD) (x : list Qc) (t : Qc) :
  well_formed self x →
  (∃ rs, constraints x t self = (Ok rs, self) ∧
     (∀ i, (i < num_nodes self)%nat → max_gen_at self i < P_at x i →
        Exists (λ r, 0 < r) rs) ∧
     ((∀ i, (i < num_nodes self)%nat → 0 ≤ P_at x i ≤ max_gen_at self i) →
      np_sum (take (num_nodes self) x) ≤ budget self →
      Forall (λ r, r ≤ 0) rs)) ∧
  (∀ n_states v,
     length v = (n_steps (base self) * n_states)%nat →
     (num_nodes self ≤ n_states)%nat →
     ∃ stacked,
       stacked = concat (residuals self
                         <$> rows_of (n_steps (base self)) n_states v) ∧
       path_constraints n_states v self = (Ok stacked, self) ∧
       (ctype <$> solver_constraints n_states) = ["ineq"] ∧
       ((λ g, cfun g v self) <$> solver_constraints n_states)
         = [(Ok (Qcopp <$> stacked), self)] ∧
       (Forall (λ y, 0 ≤ y) (Qcopp <$> stacked)
        ↔ Forall (λ r, r ≤ 0) stacked)) ∧
  (∀ (minimize : minimize_t EnergyERCRD) x0 method max_iter,
     optimize minimize x0 method max_iter self =
       (minimize objective_function (tile x0 (n_steps (base self))) method
          (replicate (length x0 * n_steps (base self)) (None, None))
          (solver_constraints (length x0))
          {| maxiter := max_iter; ftol := Q2Qc (1 # 1000000) |}
        ≫= pack_result (length x0)) self).
Proof.
  intros Hwf. split_and!; [| |done].
  - exists (residuals self x). split; [by apply constraints_run|].
    split; [intros i; apply residuals_upper_violation|].
    apply residuals_feasible.
  - intros n_states v Hlen Hn. destruct Hwf as (_ & Hgc & Hne).
    eexists. split; [reflexivity|].
    pose proof (path_constraints_run self n_states v Hlen Hn Hgc Hne) as Hp.
    split; [done|]. split; [done|]. split.
    + cbn [solver_constraints fmap list_fmap cfun].
      by rewrite neg_path_constraints_run, Hp.
    + apply negated_residuals_sign.
Qed.

Lemma constraints_sign_convention_witness :
  well_formed demo_instance demo_x0 ∧
  ∃ rs, constraints demo_x0 0 demo_instance = (Ok rs, demo_instance) ∧
        Forall (λ r, r ≤ 0) rs.
Proof.
  assert (well_formed demo_instance demo_x0) as Hwf.
  { unfold well_formed. simpl. split_and!; [lia|lia|done]. }
  split; [exact Hwf|].
  destruct (constraints_sign_convention demo_instance demo_x0 0 Hwf)
    as ((rs & Hrun & _ & Hfeasible) & _ & _).
  exists rs. split; [exact Hrun|]. apply Hfeasible.
  - intros i Hi. simpl in Hi.
    destruct i as [|[|[|i]]]; [split; compute_done..|lia].
  - compute_done.
Defined.

(** ** The memo of the adaptability term *)

Lemma np_square_sub (u v : list Qc) :
  np_sum (np_square (zip_with Qcminus u v)) = sq_dist u v.
Proof.
  unfold sq_dist, np_square. f_equal. revert v.
  induction u as [|a u IH]; intros [|b v]; cbn [zip_with fmap list_fmap];
    [done..|]. by rewrite IH.
Qed.

Lemma EnergyERCRD_init_fresh n lp gc a b g T0 K self0 :
  EnergyERCRD_init n lp gc a b g T0 K = Ok self0 →
  prev_P self0 = None ∧ num_nodes self0 = n ∧ line_params self0 = lp ∧
  generator_costs self0 = gc ∧
  ERCRDOptimizer_init a b g T0 K = Ok (super self0).
Proof.
  unfold EnergyERCRD_init.
  destruct (ERCRDOptimizer_init a b g T0 K) as [o|e]; [|done].
  by intros [= <-].
Qed.

(** C3. On a freshly constructed energy model the first call of
    [adaptability_term] returns 0 whatever its input [x1], and remembers the
    first [num_nodes] entries of [x1]; the next call, on a state [x2] whose
    tracked part has as many entries as that of [x1] (as when [x2] and [x1]
    have the same dimension), returns the squared Euclidean distance between
    the first [num_nodes] entries of [x2] and of [x1]. *)
Theorem adaptability_memo n lp gc a b g T0 K (self0 : EnergyERCRD)
    (x1 x2 : list Qc) (t1 t2 : Qc) :
  EnergyERCRD_init n lp gc a b g T0 K = Ok self0 →
  length (take n x2) = length (take n x1) →
  adaptability_term x1 t1 self0 = (Ok 0, set_prev_P (take n x1) self0) ∧
  adaptability_term x2 t2 (set_prev_P (take n x1) self0)
    = (Ok (sq_dist (take n x2) (take n x1)), set_prev_P (take n x2) self0).
Proof.
  intros Hinit Hlen.
  destruct (EnergyERCRD_init_fresh _ _ _ _ _ _ _ _ _ Hinit)
    as (Hprev & Hn & _).
  cbn [adaptability_term EnergyERCRD_model]. split.
  - rewrite adaptability_term_run. cbn zeta. by rewrite Hprev, Hn.
  - rewrite adaptability_term_run. cbn [prev_P set_prev_P num_nodes].
    rewrite Hn. cbn zeta. unfold np_sub.
    destruct (decide _) as [_|Hne].
    + unfold mret, M_ret. by rewrite np_square_sub.
    + done.
Qed.

Lemma adaptability_memo_witness :
  adaptability_term demo_x0 0 demo_instance
    = (Ok 0, set_prev_P (take 3 demo_x0) demo_instance) ∧
  adaptability_term [Q2Qc 51; Q2Qc 58; Q2Qc 40; 0; 0; 1] 1
      (set_prev_P (take 3 demo_x0) demo_instance)
    = (Ok (sq_dist (take 3 [Q2Qc 51; Q2Qc 58; Q2Qc 40; 0; 0; 1])
             (take 3 demo_x0)),
       set_prev_P (take 3 [Q2Qc 51; Q2Qc 58; Q2Qc 40; 0; 0; 1])
         demo_instance).
Proof.
  apply (adaptability_memo 3 demo_B demo_generator_costs
           default_alpha default_beta default_gamma (Q2Qc 24) 24).
  - reflexivity.
  - reflexivity.
Defined.

(** [P - prev] returns exactly for the pairs of lengths that numpy
    broadcasts. *)
Lemma np_sub_returns {S} (a b : list Qc) (self : S) :
  (∃ d, (np_sub a b self).1 = Ok d) ↔
  length a = length b ∨ length a = 1%nat ∨ length b = 1%nat.
Proof.
  unfold np_sub. destruct (decide _) as [Heq|Hne].
  - split; [by left|]. intros _. by eexists.
  - destruct a as [|x [|x' a]], b as [|y [|y' b]]; simpl in *;
      try done;
      (split;
       [ intros [d Hd];
         first [ discriminate Hd | by right; left | by right; right ]
       | intros [H|[H|H]];
         first [ done | discriminate H | by eexists ] ]).
Qed.

(** C10. In the energy model [efficiency_term],
    [collective_efficiency_term] and [constraints] ignore the time argument
    and leave every attribute of the instance as it was, whether they return
    or raise; [constraints], when it returns, returns exactly
    [2 * num_nodes + 1] residuals (and it does return on a well-formed
    input). [adaptability_term] is the only method that assigns an
    attribute. It ignores the time as well. It returns exactly when there is
    no memo yet, or the memo and the first [num_nodes] entries of the
    argument have lengths that numpy's subtraction accepts (equal, or one of
    them 1). When it returns, the attribute [prev_P] of the instance holds the
    first [num_nodes] entries of the argument and every other attribute is as
    before, so that the instance has changed unless the memo already held
    that value; when it raises, nothing has changed. *)
Theorem energy_methods_frame (self : EnergyERCRD) (x : list Qc) (t1 t2 : Qc) :
  (efficiency_term x t1 self = efficiency_term x t2 self ∧
   (efficiency_term x t1 self).2 = self) ∧
  (collective_efficiency_term x t1 self
     = collective_efficiency_term x t2 self ∧
   (collective_efficiency_term x t1 self).2 = self) ∧
  (constraints x t1 self = constraints x t2 self ∧
   (constraints x t1 self).2 = self ∧
   (∀ rs, (constraints x t1 self).1 = Ok rs →
      length rs = (2 * num_nodes self + 1)%nat) ∧
   (well_formed self x → ∃ rs, (constraints x t1 self).1 = Ok rs)) ∧
  (adaptability_term x t1 self = adaptability_term x t2 self ∧
   ((∃ c, (adaptability_term x t1 self).1 = Ok c) ↔
      match prev_P self with
      | None => True
      | Some prev =>
          length (take (num_nodes self) x) = length prev ∨
          length (take (num_nodes self) x) = 1%nat ∨
          length prev = 1%nat
      end) ∧
   (∀ c, (adaptability_term x t1 self).1 = Ok c →
      (adaptability_term x t1 self).2
        = {| super := super self; num_nodes := num_nodes self;
             line_params := line_params self;
             generator_costs := generator_costs self;
             prev_P := Some (take (num_nodes self) x) |} ∧
      (prev_P self ≠ Some (take (num_nodes self) x) →
         (adaptability_term x t1 self).2 ≠ self)) ∧
   (∀ e, (adaptability_term x t1 self).1 = Raise e →
      (adaptability_term x t1 self).2 = self)).
Proof.
  cbn [efficiency_term collective_efficiency_term constraints
       adaptability_term EnergyERCRD_model].
  split_and!; try reflexivity.
  - symmetry. apply efficiency_term_pure.
  - symmetry. apply collective_efficiency_term_pure.
  - symmetry. apply constraints_pure.
  - intros rs Hrs.
    destruct (Energy.constraints x t1 self) as [o s'] eqn:Hrun.
    simpl in Hrs. subst o. by eapply constraints_length.
  - intros Hwf. exists (residuals self x). by rewrite constraints_run.
  - rewrite adaptability_term_run. cbn zeta.
    destruct (prev_P self) as [prev|]; [|split; [done|by eexists]].
    rewrite <- (np_sub_returns (take (num_nodes self) x) prev self).
    destruct (np_sub _ _ self) as [[d|e] s']; simpl;
      split; intros [v Hv]; first [discriminate Hv | by eexists].
  - intros c. rewrite adaptability_term_run. cbn zeta.
    assert (∀ s : EnergyERCRD,
              s = set_prev_P (take (num_nodes self) x) self →
              s = {| super := super self; num_nodes := num_nodes self;
                     line_params := line_params self;
                     generator_costs := generator_costs self;
                     prev_P := Some (take (num_nodes self) x) |} ∧
              (prev_P self ≠ Some (take (num_nodes self) x) → s ≠ self))
      as Hset.
    { intros s ->. split; [reflexivity|]. intros Hne Heq. apply Hne.
      by rewrite <- Heq at 1. }
    destruct (prev_P self) as [prev|] eqn:Hprev.
    + destruct (np_sub _ _ self) as [[d|e] s']; simpl; [|done].
      intros _. by apply Hset.
    + simpl. intros _. by apply Hset.
  - intros e. rewrite adaptability_term_run. cbn zeta.
    destruct (prev_P self) as [prev|]; [|done].
    by destruct (np_sub _ _ self) as [[d|e'] s'].
Qed.

Lemma energy_methods_frame_witness :
  (prev_P demo_instance = None ∧
   ∃ c, (adaptability_term demo_x0 0 demo_instance).1 = Ok c ∧
        prev_P (adaptability_term demo_x0 0 demo_instance).2
          = Some [Q2Qc 50; Q2Qc 60; Q2Qc 40] ∧
        (adaptability_term demo_x0 0 demo_instance).2 ≠ demo_instance) ∧
  (∃ e, adaptability_term demo_x0 0 (set_prev_P [1; 2] demo_instance)
        = (Raise e, set_prev_P [1; 2] demo_instance)).
Proof.
  split.
  - split; [reflexivity|].
    destruct (energy_methods_frame demo_instance demo_x0 0 1)
      as (_ & _ & _ & _ & Hreturns & Hstores & _).
    destruct (proj2 Hreturns I) as [c Hc]. exists c.
    destruct (Hstores c Hc) as [Hstate Hchanged].
    split; [exact Hc|]. split.
    + by rewrite Hstate.
    + by apply Hchanged.
  - destruct (energy_methods_frame (set_prev_P [1; 2] demo_instance)
                demo_x0 0 1)
      as (_ & _ & _ & _ & Hreturns & _ & Hraises).
    destruct (adaptability_term demo_x0 0 (set_prev_P [1; 2] demo_instance))
      as [[c|e] s] eqn:Hrun; cbn [fst snd] in *.
    + destruct (proj1 Hreturns (ex_intro _ c eq_refl)) as [H|[H|H]];
        discriminate H.
    + exists e. by rewrite (Hraises e eq_refl).
Defined.

(** ** The objective and the memo *)

Section ObjectiveFrame.
Context {S : Type} `{!DomainModel S}.
Context (R : relation S) `{!Reflexive R, !Transitive R}.

Lemma objective_function_keeps (x_flat : list Qc) :
  (∀ x t, keeps R (efficiency_term x t)) →
  (∀ x t, keeps R (adaptability_term x t)) →
  (∀ x t, keeps R (collective_efficiency_term x t)) →
  keeps R (objective_function x_flat).
Proof.
  intros He Ha Hc.
  unfold objective_function, decode_inferred, objective_step. frame; auto.
Qed.
End ObjectiveFrame.

Lemma energy_objective_keeps_config (x_flat : list Qc) :
  keeps same_config (objective_function x_flat).
Proof.
  apply objective_function_keeps; try apply _; intros x t;
    cbn [efficiency_term adaptability_term collective_efficiency_term
         EnergyERCRD_model].
  - apply preserves_keeps; [apply _|apply efficiency_term_pure].
  - apply adaptability_term_keeps_config.
  - apply preserves_keeps; [apply _|apply collective_efficiency_term_pure].
Qed.

Lemma reset_prev_P_fresh (self : EnergyERCRD) :
  prev_P self = None → reset_prev_P self = self.
Proof. destruct self. simpl. by intros ->. Qed.

(** C9. The objective is not a function of the flat vector alone: on the
    one-node model (adaptability weight 0.25) two successive calls on the
    same vector return 7.125 and then 7.25, the second call measuring its
    first row against the last row of the first call; the call made after
    deleting [prev_P] returns 7.125 again. In general the run that follows a
    reset is the run on the reset initial instance, and a freshly constructed
    instance is its own reset. *)
Theorem objective_depends_on_memo :
  (∃ (self : EnergyERCRD) (x_flat : list Qc) (v1 v2 : Qc) s1 s2,
     beta (base self) ≠ 0 ∧ prev_P self = None ∧
     objective_function x_flat self = (Ok v1, s1) ∧
     objective_function x_flat s1 = (Ok v2, s2) ∧
     v1 ≠ v2 ∧
     objective_function x_flat (reset_prev_P s1) = (Ok v1, s1)) ∧
  (∀ (self : EnergyERCRD) (x_flat : list Qc),
     objective_function x_flat
       (reset_prev_P (objective_function x_flat self).2)
     = objective_function x_flat (reset_prev_P self)) ∧
  (∀ self : EnergyERCRD, prev_P self = None → reset_prev_P self = self).
Proof.
  split_and!.
  - exists single_node_model, [1; 0; 2; 0],
      (Q2Qc (7125 # 1000)), (Q2Qc (725 # 100)),
      (set_prev_P [2] single_node_model), (set_prev_P [2] single_node_model).
    split_and!; [compute_done|reflexivity|compute_done..].
  - intros self x_flat.
    by rewrite <- (energy_objective_keeps_config x_flat self).
  - apply reset_prev_P_fresh.
Qed.

(** ** The driver *)

Section Driver.
Context {S : Type} `{!DomainModel S}.

Lemma pack_result_run (n_states : nat) (result : OptimizeResult) (self : S) :
  pack_result n_states result self =
  if decide (length (r_x result) = (n_steps (base self) * n_states)%nat)
  then (Ok (<["nit" := PyInt (r_nit result)]>
            (<["final_cost" := PyFloat (r_fun result)]>
             (<["optimal_trajectory" :=
                  PyArray2 (rows_of (n_steps (base self)) n_states
                              (r_x result))]>
              (<["success" := PyBool (r_success result)]> ∅)))), self)
  else (Raise ValueError, self).
Proof.
  unfold pack_result. destruct (decide _) as [Hlen|Hlen].
  - by rewrite (run_bind_ok _ _ _ _ _ (decode_fixed_ok _ _ _ Hlen)).
  - by rewrite run_bind, (decode_fixed_raises _ _ _ Hlen).
Qed.

(** The keys of every dictionary that [pack_result] returns. *)
Lemma pack_result_keys n_states result self d self' :
  pack_result n_states result self = (Ok d, self') →
  dom d = ({["success"; "optimal_trajectory"; "final_cost"; "nit"]}
           : gset string) ∧
  d !! "message" = None.
Proof.
  rewrite pack_result_run. destruct (decide _); [|done].
  intros [= <- _]. split.
  - rewrite !dom_insert_L, dom_empty_L. set_solver.
  - by rewrite !lookup_insert_ne, lookup_empty.
Qed.

(** C6 (amended). [optimize] checks nothing about [x0]: whatever its
    length, the run starts by calling the solver, on the unchanged instance,
    with the [K]-fold tiling of [x0] (of length [K * len(x0)]), as many
    unbounded pairs, the objective and the one inequality group built for
    width [len(x0)]; an exception of the solver propagates, and when the
    solver returns a vector of length [K * len(x0)] the result dictionary is
    returned. *)
Theorem optimize_takes_width_from_x0 (minimize : minimize_t S)
    (x0 : list Qc) (method : string) (max_iter : nat) (self : S) :
  optimize minimize x0 method max_iter self =
    (minimize objective_function (tile x0 (n_steps (base self))) method
       (replicate (length x0 * n_steps (base self)) (None, None))
       (solver_constraints (length x0))
       {| maxiter := max_iter; ftol := Q2Qc (1 # 1000000) |}
     ≫= pack_result (length x0)) self ∧
  length (tile x0 (n_steps (base self)))
    = (n_steps (base self) * length x0)%nat ∧
  (∀ result self',
     minimize objective_function (tile x0 (n_steps (base self))) method
       (replicate (length x0 * n_steps (base self)) (None, None))
       (solver_constraints (length x0))
       {| maxiter := max_iter; ftol := Q2Qc (1 # 1000000) |} self
     = (Ok result, self') →
     length (r_x result) = (n_steps (base self') * length x0)%nat →
     ∃ d, optimize minimize x0 method max_iter self = (Ok d, self') ∧
          d !! "success" = Some (PyBool (r_success result)) ∧
          d !! "optimal_trajectory"
            = Some (PyArray2 (rows_of (n_steps (base self')) (length x0)
                                (r_x result))) ∧
          d !! "final_cost" = Some (PyFloat (r_fun result)) ∧
          d !! "nit" = Some (PyInt (r_nit result))).
Proof.
  split_and!; [reflexivity|apply length_tile|].
  intros result self' Hsolver Hlen. unfold optimize. rewrite run_attr.
  cbv zeta. rewrite (run_bind_ok _ _ _ _ _ Hsolver), pack_result_run.
  destruct (decide _) as [_|Hne]; [|done].
  eexists. split; [reflexivity|]. by split_and!.
Qed.

(** Whatever the solver, a dictionary returned by [optimize] has the four
    keys [success], [optimal_trajectory], [final_cost] and [nit] and no
    others. *)
Lemma optimize_result_keys (minimize : minimize_t S)
    (x0 : list Qc) (method : string) (max_iter : nat) (self : S) :
  match (optimize minimize x0 method max_iter self).1 with
  | Ok d =>
      dom d = ({["success"; "optimal_trajectory"; "final_cost"; "nit"]}
               : gset string) ∧
      d !! "message" = None ∧
      ∀ default, dict_get d "message" default = default
  | Raise _ => True
  end.
Proof.
  unfold optimize. rewrite run_attr. cbv zeta. rewrite run_bind.
  destruct (minimize _ _ _ _ _ _ self) as [[result|e] self1]; [|done].
  destruct (pack_result (length x0) result self1) as [[d|e] self2] eqn:Hp;
    [|done].
  destruct (pack_result_keys _ _ _ _ _ Hp) as [Hdom Hmsg]. simpl.
  split_and!; [done..|]. intros default. unfold dict_get. by rewrite Hmsg.
Qed.
End Driver.

(** C6, as stated, fails: the demo model has state dimension 6, yet
    [optimize] on an initial state of 7 entries raises nothing, calls the
    solver and returns its outcome as a 24-by-7 trajectory. *)
Lemma optimize_accepts_long_x0_counterexample :
  length (demo_x0 ++ [Q2Qc 7]) ≠ state_dim demo_instance ∧
  optimize (stopping_solver true "Optimization terminated successfully")
    (demo_x0 ++ [Q2Qc 7]) default_method default_max_iter demo_instance
  = (Ok (<["nit" := PyInt 1000]>
         (<["final_cost" := PyFloat (Q2Qc 24426)]>
          (<["optimal_trajectory" :=
               PyArray2 (replicate 24 (demo_x0 ++ [Q2Qc 7]))]>
           (<["success" := PyBool true]> ∅)))),
     set_prev_P (take 3 demo_x0) demo_instance).
Proof. split; compute_done. Qed.

(** C5. The solver's message does not reach the caller. Whatever the
    solver, the dictionary [optimize] returns has the keys [success],
    [optimal_trajectory], [final_cost] and [nit] only. On the demo model,
    with a solver that stops at once and reports failure with the message
    [Iteration limit reached], the result has [success = False] and no
    [message], so the demo's [result.get('message', 'Unknown error')] yields
    [Unknown error]. *)
Theorem optimize_drops_solver_message :
  (∀ (S : Type) (model : DomainModel S) (minimize : minimize_t S)
     x0 method max_iter self,
     match (optimize minimize x0 method max_iter self).1 with
     | Ok d =>
         dom d = ({["success"; "optimal_trajectory"; "final_cost"; "nit"]}
                  : gset string) ∧
         d !! "message" = None
     | Raise _ => True
     end) ∧
  ∃ d self',
    optimize (stopping_solver false "Iteration limit reached")
      demo_x0 default_method default_max_iter demo_instance = (Ok d, self') ∧
    d !! "success" = Some (PyBool false) ∧
    d !! "optimal_trajectory" = Some (PyArray2 (replicate 24 demo_x0)) ∧
    d !! "final_cost" = Some (PyFloat (Q2Qc 24426)) ∧
    d !! "nit" = Some (PyInt 1000) ∧
    d !! "message" = None ∧
    dict_get d "message" (PyStr "Unknown error") = PyStr "Unknown error".
Proof.
  split.
  - intros S model minimize x0 method max_iter self.
    pose proof (optimize_result_keys minimize x0 method max_iter self) as H.
    destruct (optimize minimize x0 method max_iter self).1; [|done].
    by destruct H as (? & ? & _).
  - exists (<["nit" := PyInt 1000]>
            (<["final_cost" := PyFloat (Q2Qc 24426)]>
             (<["optimal_trajectory" := PyArray2 (replicate 24 demo_x0)]>
              (<["success" := PyBool false]> ∅)))),
      (set_prev_P (take 3 demo_x0) demo_instance).
    split; [compute_done|]. by split_and!.
Qed.

(** ** The concrete instances are what the constructors build *)

Lemma demo_instance_constructed : demo_model (Q2Qc 24) 24 = Ok demo_instance.
Proof. reflexivity. Qed.

Lemma single_node_model_constructed :
  EnergyERCRD_init 1 [[0]] [(1, 1, Q2Qc 10)] half quarter quarter (Q2Qc 2) 2
  = Ok single_node_model.
Proof. reflexivity. Qed.

Lemma constant_models_constructed :
  ConstantModel_init (Q2Qc 2) half quarter quarter (Q2Qc 3) 3
    = Ok constant_three_steps ∧
  ConstantModel_init 1 half quarter quarter 1 1 = Ok constant_one_step.
Proof. by split. Qed.

(** The abstract class implements none of its terms. *)
Lemma abstract_terms_raise (x : list Qc) (t : Qc) (self : ERCRDOptimizer) :
  efficiency_term x t self = (Raise NotImplementedError, self) ∧
  adaptability_term x t self = (Raise NotImplementedError, self) ∧
  collective_efficiency_term x t self = (Raise NotImplementedError, self) ∧
  constraints x t self = (Raise NotImplementedError, self).
Proof. by split_and!. Qed.

Lemma reshape_encode_bijection_witness :
  reshape (encode [[1; 2]; [0; 1]; [2; 2]]) 3 2 demo_instance
    = (Ok [[1; 2]; [0; 1]; [2; 2]], demo_instance) ∧
  ∃ X, reshape [1; 2; 0; 1; 2; 2] 3 2 demo_instance = (Ok X, demo_instance) ∧
       encode X = [1; 2; 0; 1; 2; 2 : Qc].
Proof.
  destruct (reshape_encode_bijection 3 2 demo_instance) as [Hdec Henc].
  split.
  - apply Hdec; [reflexivity|]. by repeat constructor.
  - destruct (Henc [1; 2; 0; 1; 2; 2] eq_refl) as (X & HX & Hflat & _).
    by exists X.
Defined.
(** * Further properties of the code *)

(** ** Loops that raise *)

Section Loops.
Context {S : Type}.

(** A loop over iterations that each return or raise [e], leaving the
    instance alone, raises [e] as soon as one element makes the body raise. *)
Lemma for_each_raises {A B} (e : exn) (xs : list A) (body : A → B → M S B)
    (self : S) :
  (∀ x acc, (∃ acc', body x acc self = (Ok acc', self)) ∨
            body x acc self = (Raise e, self)) →
  Exists (λ x, ∀ acc, body x acc self = (Raise e, self)) xs →
  ∀ acc, for_each xs body acc self = (Raise e, self).
Proof.
  intros Hbody Hex. induction Hex as [x xs Hx|x xs _ IH]; intros acc; simpl.
  - by rewrite run_bind, Hx.
  - rewrite run_bind. destruct (Hbody x acc) as [[acc' ->]| ->]; [apply IH|done].
Qed.

Lemma run_bind_raise {A B} (m : M S A) (f : A → M S B) self e self' :
  m self = (Raise e, self') → (m ≫= f) self = (Raise e, self').
Proof. intros H. by rewrite run_bind, H. Qed.

(** The accumulator of a loop that adds one term per iteration. *)
Lemma for_each_sum {A} (f : A → Qc) (xs : list A) (body : A → Qc → M S Qc)
    (self : S) :
  (∀ x acc, x ∈ xs → body x acc self = (Ok (acc + f x), self)) →
  ∀ acc, for_each xs body acc self = (Ok (acc + np_sum (f <$> xs)), self).
Proof.
  induction xs as [|x xs IH]; intros Hbody acc; cbn [for_each].
  - rewrite fmap_nil, np_sum_nil. unfold mret, M_ret. do 2 f_equal. ring.
  - rewrite (run_bind_ok _ _ _ _ _ (Hbody x acc ltac:(by left))).
    rewrite IH by (intros; apply Hbody; by right).
    rewrite fmap_cons, np_sum_cons. do 2 f_equal. ring.
Qed.
End Loops.

(** ** Step counts as rationals *)

Lemma Qc_of_nat_nonzero (K : nat) : K ≠ 0%nat → Qc_of_nat K ≠ 0.
Proof.
  intros HK E. apply HK. unfold Qc_of_nat in E.
  rewrite <- Z2Qc_inj_0 in E. apply Z2Qc_inj in E. lia.
Qed.

(** ** The efficiency term *)

Lemma efficiency_step_outcome (self : EnergyERCRD) (P : list Qc) (i : nat)
    (cost : Qc) :
  (gc ← attr generator_costs;
   '(a, b, c) ← getitem gc i;
   P_i ← getitem P i;
   mret (cost + (a * (P_i * P_i) + b * P_i + c))) self =
  match generator_costs self !! i, P !! i with
  | Some g, Some p => (Ok (cost + cost_row p g), self)
  | _, _ => (Raise IndexError, self)
  end.
Proof.
  rewrite run_attr. unfold getitem.
  destruct (generator_costs self !! i) as [[[a b] c]|]; [|done].
  rewrite run_bind. unfold mret at 1, M_ret at 1.
  by destruct (P !! i).
Qed.

Lemma zip_with_take_S {A B C} (f : A → B → C) (l : list A) (k : list B) i a b :
  l !! i = Some a → k !! i = Some b →
  zip_with f (take (Datatypes.S i) l) (take (Datatypes.S i) k)
  = zip_with f (take i l) (take i k) ++ [f a b].
Proof.
  intros Hl Hk. rewrite (take_S_r _ _ _ Hl), (take_S_r _ _ _ Hk).
  rewrite zip_with_app; [done|].
  apply lookup_lt_Some in Hl, Hk. rewrite !length_take. lia.
Qed.

Lemma efficiency_term_returns (self : EnergyERCRD) (x : list Qc) (t : Qc) :
  (num_nodes self ≤ length x)%nat →
  (num_nodes self ≤ length (generator_costs self))%nat →
  Energy.efficiency_term x t self = (Ok (generation_cost self x), self).
Proof.
  intros Hx Hgc. unfold Energy.efficiency_term.
  rewrite run_attr. set (n := num_nodes self) in *.
  destruct (for_each_inv
    (λ i acc s, s = self ∧
       acc = np_sum (zip_with cost_row (take i x)
                       (take i (generator_costs self))))
    (range n)
    (λ i cost,
       gc ← attr generator_costs;
       '(a, b, c) ← getitem gc i;
       P_i ← getitem (take n x) i;
       mret (cost + (a * (P_i * P_i) + b * P_i + c))) 0 self)
    as (r & s' & Hrun & -> & Hr).
  - intros i k acc s Hk [-> ->]. apply lookup_seq in Hk as [-> Hi].
    cbn [Nat.add]. rewrite efficiency_step_outcome.
    destruct (lookup_lt_is_Some_2 (generator_costs self) i ltac:(lia))
      as [g Hg].
    destruct (lookup_lt_is_Some_2 x i ltac:(lia)) as [p Hp].
    rewrite Hg, lookup_take_lt, Hp by done.
    eexists _, self. split; [reflexivity|]. split; [done|].
    by rewrite (zip_with_take_S _ _ _ _ _ _ Hp Hg), np_sum_app,
      np_sum_singleton.
  - done.
  - rewrite Hrun, Hr. unfold range. by rewrite length_seq.
Qed.

Lemma efficiency_term_index_error (self : EnergyERCRD) (x : list Qc) (t : Qc) :
  ¬ ((num_nodes self ≤ length x)%nat ∧
     (num_nodes self ≤ length (generator_costs self))%nat) →
  Energy.efficiency_term x t self = (Raise IndexError, self).
Proof.
  intros Hshort. unfold Energy.efficiency_term.
  rewrite run_attr. set (n := num_nodes self) in *.
  apply for_each_raises.
  - intros i acc. rewrite efficiency_step_outcome.
    destruct (generator_costs self !! i), (take n x !! i); eauto.
  - apply Exists_exists.
    exists (length x `min` length (generator_costs self))%nat. split.
    + unfold range. apply elem_of_seq. lia.
    + intros acc. rewrite efficiency_step_outcome.
      destruct (decide (length x ≤ length (generator_costs self))%nat).
      * rewrite Nat.min_l by done.
        rewrite (lookup_ge_None_2 (take n x))
          by (rewrite length_take; lia).
        by destruct (generator_costs self !! length x).
      * rewrite Nat.min_r by lia.
        by rewrite (lookup_ge_None_2 (generator_costs self)).
Qed.

(** X2. [efficiency_term] returns exactly when the state and the cost
    table both have [num_nodes] entries or more: then the value is the sum
    of [a * P_i^2 + b * P_i + c] over the first [num_nodes] generators,
    whatever the remaining entries of the state; otherwise it raises
    [IndexError]. In both cases the instance is unchanged. *)
Theorem efficiency_term_outcome (self : EnergyERCRD) (x : list Qc) (t : Qc) :
  efficiency_term x t self =
  if decide ((num_nodes self ≤ length x)%nat ∧
             (num_nodes self ≤ length (generator_costs self))%nat)
  then (Ok (generation_cost self x), self)
  else (Raise IndexError, self).
Proof.
  cbn [efficiency_term EnergyERCRD_model].
  destruct (decide _) as [[Hx Hgc]|Hshort].
  - by apply efficiency_term_returns.
  - by apply efficiency_term_index_error.
Qed.

Lemma generation_cost_split (self : EnergyERCRD) (x : list Qc) :
  (num_nodes self ≤ length x)%nat →
  (num_nodes self ≤ length (generator_costs self))%nat →
  generation_cost self x =
  np_sum (zip_with variable_cost_row (take (num_nodes self) x)
            (take (num_nodes self) (generator_costs self)))
  + np_sum (max_gen_at self <$> range (num_nodes self)).
Proof.
  unfold generation_cost, range. generalize (num_nodes self) as n.
  induction n as [|i IH]; intros Hx Hgc.
  - rewrite !take_0. cbn [zip_with seq]. rewrite fmap_nil, np_sum_nil. ring.
  - destruct (lookup_lt_is_Some_2 (generator_costs self) i ltac:(lia))
      as [[[a b] c] Hg].
    destruct (lookup_lt_is_Some_2 x i ltac:(lia)) as [p Hp].
    assert (max_gen_at self i = c) as Hc
      by (unfold max_gen_at; by rewrite Hg).
    rewrite !(zip_with_take_S _ _ _ _ _ _ Hp Hg), !np_sum_app,
      !np_sum_singleton, IH by lia.
    rewrite seq_S, fmap_app, np_sum_app, list_fmap_singleton,
      np_sum_singleton.
    cbn [Nat.add]. rewrite Hc. cbn [cost_row variable_cost_row]. ring.
Qed.

(** X3. The third entry of a generator's row is both the constant of its
    cost and its declared capacity: on an input where [efficiency_term]
    returns, its value is the output-dependent part [a * P_i^2 + b * P_i]
    summed over the generators, plus the sum of the capacities that
    [constraints] bounds the outputs with. *)
Theorem efficiency_constant_is_capacity (self : EnergyERCRD) (x : list Qc)
    (t : Qc) :
  (num_nodes self ≤ length x)%nat →
  (num_nodes self ≤ length (generator_costs self))%nat →
  efficiency_term x t self =
    (Ok (np_sum (zip_with variable_cost_row (take (num_nodes self) x)
                   (take (num_nodes self) (generator_costs self)))
         + np_sum (max_gen_at self <$> range (num_nodes self))), self).
Proof.
  intros Hx Hgc. cbn [efficiency_term EnergyERCRD_model].
  by rewrite efficiency_term_returns, generation_cost_split.
Qed.

Lemma efficiency_constant_is_capacity_witness :
  efficiency_term demo_x0 0 demo_instance =
    (Ok (np_sum (zip_with variable_cost_row (take 3 demo_x0)
                   (take 3 demo_generator_costs))
         + np_sum (max_gen_at demo_instance <$> range 3)), demo_instance).
Proof.
  apply (efficiency_constant_is_capacity demo_instance demo_x0 0);
    simpl; lia.
Defined.

(** ** The collective term *)

Lemma np_sum_concat (ls : list (list Qc)) :
  np_sum (concat ls) = np_sum (np_sum <$> ls).
Proof.
  induction ls as [|l ls IH]; [done|].
  cbn [concat]. by rewrite fmap_cons, np_sum_app, np_sum_cons, IH.
Qed.

Lemma Qc_square_nonneg (a : Qc) : 0 ≤ a * a.
Proof.
  destruct (Qclt_le_dec a 0) as [Hneg|Hpos].
  - replace (a * a) with (- a * - a) by ring.
    apply Qclt_le_weak in Hneg. apply Qc_opp_nonneg_iff in Hneg.
    by apply Qcmult_nonneg_nonneg.
  - by apply Qcmult_nonneg_nonneg.
Qed.

Lemma np_sum_nonneg (l : list Qc) : Forall (λ v, 0 ≤ v) l → 0 ≤ np_sum l.
Proof.
  induction 1 as [|v l Hv _ IH]; [done|].
  rewrite np_sum_cons. by apply Qcplus_nonneg_nonneg.
Qed.

Lemma range2_bounds (a b j : nat) : j ∈ range2 a b ↔ (a ≤ j < b)%nat.
Proof. unfold range2. rewrite elem_of_seq. lia. Qed.

Lemma pair_penalty_nonneg self x i j : 0 ≤ pair_penalty self x i j.
Proof.
  unfold pair_penalty. destruct (decide _); [apply Qc_square_nonneg|done].
Qed.

Lemma coupling_penalty_nonneg self x : 0 ≤ coupling_penalty self x.
Proof.
  unfold coupling_penalty. apply np_sum_nonneg, Forall_concat_fmap.
  intros i _. apply Forall_fmap, Forall_true. intros j.
  apply pair_penalty_nonneg.
Qed.

(** Two settings with the same pair penalties have the same coupling
    penalty. *)
Lemma coupling_penalty_ext self x self' x' :
  num_nodes self = num_nodes self' →
  (∀ i j, (i < j)%nat → (j < num_nodes self)%nat →
     pair_penalty self x i j = pair_penalty self' x' i j) →
  coupling_penalty self x = coupling_penalty self' x'.
Proof.
  intros Hn Hpair. unfold coupling_penalty. rewrite <- Hn. do 2 f_equal.
  apply list_fmap_ext. intros _ i _.
  apply list_fmap_ext. intros _ j Hj%list_elem_of_lookup_2.
  apply range2_bounds in Hj. apply Hpair; lia.
Qed.

Lemma np_sum_zero (l : list Qc) : Forall (λ v, v = 0) l → np_sum l = 0.
Proof.
  induction 1 as [|v l -> _ IH]; [done|]. rewrite np_sum_cons, IH. ring.
Qed.

Lemma coupling_penalty_zero self x :
  (∀ i j, (i < j)%nat → (j < num_nodes self)%nat →
     pair_penalty self x i j = 0) →
  coupling_penalty self x = 0.
Proof.
  intros Hpair. unfold coupling_penalty.
  apply np_sum_zero, Forall_concat_fmap. intros i _.
  apply Forall_fmap, Forall_forall. intros j Hj%range2_bounds.
  apply Hpair; lia.
Qed.

Lemma collective_pair_step (self : EnergyERCRD) (x : list Qc) (i j : nat)
    (angle_diff : Qc) :
  coupling_defined self → (state_dim self ≤ length x)%nat →
  (i < j)%nat → (j < num_nodes self)%nat →
  (lp ← attr line_params;
   row ← getitem lp i;
   l_ij ← getitem row j;
   if decide (l_ij ≠ 0)
   then theta_i ← getitem (drop (num_nodes self) x) i;
        theta_j ← getitem (drop (num_nodes self) x) j;
        mret (angle_diff + (theta_i - theta_j) * (theta_i - theta_j))
   else mret angle_diff) self
  = (Ok (angle_diff + pair_penalty self x i j), self).
Proof.
  intros Hdef Hdim Hij Hj. rewrite run_attr.
  destruct (Hdef i j Hij Hj) as [l Hl].
  destruct (line_params self !! i) as [row|] eqn:Hrow; [|done].
  cbn [mbind option_bind] in Hl.
  rewrite (run_bind_ok _ _ _ _ _ (run_getitem _ _ _ _ Hrow)).
  rewrite (run_bind_ok _ _ _ _ _ (run_getitem _ _ _ _ Hl)).
  unfold state_dim in Hdim.
  assert (line_at self i j = l) as Hline.
  { unfold line_at. rewrite Hrow. cbn [mbind option_bind]. by rewrite Hl. }
  unfold pair_penalty. rewrite Hline.
  destruct (decide (l ≠ 0)) as [_|_].
  - destruct (lookup_lt_is_Some_2 (drop (num_nodes self) x) i) as [ti Hti];
      [rewrite length_drop; lia|].
    destruct (lookup_lt_is_Some_2 (drop (num_nodes self) x) j) as [tj Htj];
      [rewrite length_drop; lia|].
    rewrite (run_bind_ok _ _ _ _ _ (run_getitem _ _ _ _ Hti)).
    rewrite (run_bind_ok _ _ _ _ _ (run_getitem _ _ _ _ Htj)).
    unfold theta_at. by rewrite Hti, Htj.
  - unfold mret, M_ret. do 2 f_equal. ring.
Qed.

Lemma collective_term_returns (self : EnergyERCRD) (x : list Qc) (t : Qc) :
  coupling_defined self → (state_dim self ≤ length x)%nat →
  Energy.collective_efficiency_term x t self
  = (Ok (coupling_penalty self x), self).
Proof.
  intros Hdef Hdim. unfold Energy.collective_efficiency_term.
  rewrite run_attr.
  rewrite (for_each_sum
    (λ i, np_sum (pair_penalty self x i
                  <$> range2 (i + 1) (num_nodes self)))).
  - unfold coupling_penalty.
    by rewrite np_sum_concat, <- list_fmap_compose, Qcplus_0_l.
  - intros i acc Hi. rewrite run_attr.
    apply for_each_sum. intros j acc' Hj. apply range2_bounds in Hj.
    apply collective_pair_step; [done..|lia|lia].
Qed.

(** X4. When the coupling matrix has an entry for every pair
    [i < j < num_nodes] and the state holds [num_nodes] angles after its
    [num_nodes] outputs, [collective_efficiency_term] returns, leaving the
    instance unchanged, the sum of [(theta_i - theta_j)^2] over the pairs
    [i < j] whose entry [(i, j)] is not zero. *)
Theorem collective_term_closed_form (self : EnergyERCRD) (x : list Qc)
    (t : Qc) :
  coupling_defined self → (state_dim self ≤ length x)%nat →
  collective_efficiency_term x t self = (Ok (coupling_penalty self x), self).
Proof. apply collective_term_returns. Qed.

Lemma demo_coupling_defined : coupling_defined demo_instance.
Proof.
  intros i j Hij Hj. simpl in Hj.
  destruct i as [|[|[|i]]], j as [|[|[|j]]]; try lia; by eexists.
Qed.

Lemma collective_term_closed_form_witness :
  collective_efficiency_term demo_x0 0 demo_instance
  = (Ok (coupling_penalty demo_instance demo_x0), demo_instance).
Proof.
  apply (collective_term_closed_form demo_instance demo_x0 0).
  - apply demo_coupling_defined.
  - unfold state_dim. simpl. lia.
Defined.

Lemma theta_at_app self P theta i :
  length P = num_nodes self →
  theta_at self (P ++ theta) i = default 0 (theta !! i).
Proof. intros HP. unfold theta_at. by rewrite drop_app_length'. Qed.

Lemma pair_penalty_app self P theta i j :
  length P = num_nodes self →
  pair_penalty self (P ++ theta) i j =
  if decide (line_at self i j ≠ 0)
  then (default 0 (theta !! i) - default 0 (theta !! j))
       * (default 0 (theta !! i) - default 0 (theta !! j))
  else 0.
Proof. intros HP. unfold pair_penalty. by rewrite !theta_at_app. Qed.

(** X5. On a state [P ++ theta] with [num_nodes] outputs and at least
    [num_nodes] angles, the value of [collective_efficiency_term] is
    non-negative, does not depend on the outputs [P], is unchanged when the
    same constant is added to every angle, and is zero when all angles are
    equal. *)
Theorem collective_term_invariances (self : EnergyERCRD) (P theta : list Qc)
    (t : Qc) :
  coupling_defined self →
  length P = num_nodes self → (num_nodes self ≤ length theta)%nat →
  ∃ v, collective_efficiency_term (P ++ theta) t self = (Ok v, self) ∧
       0 ≤ v ∧
       (∀ P', length P' = num_nodes self →
          collective_efficiency_term (P' ++ theta) t self = (Ok v, self)) ∧
       (∀ c, collective_efficiency_term
               (P ++ ((λ a, a + c) <$> theta)) t self = (Ok v, self)) ∧
       (∀ a, theta = replicate (length theta) a → v = 0).
Proof.
  intros Hdef HP Htheta.
  assert (∀ P' theta' : list Qc, length P' = num_nodes self →
            length theta' = length theta →
            (state_dim self ≤ length (P' ++ theta'))%nat) as Hdim.
  { intros P' theta' HP' Ht'. rewrite length_app. unfold state_dim. lia. }
  exists (coupling_penalty self (P ++ theta)).
  cbn [collective_efficiency_term EnergyERCRD_model]. split_and!.
  - by apply collective_term_returns, Hdim.
  - apply coupling_penalty_nonneg.
  - intros P' HP'. rewrite collective_term_returns by auto.
    do 2 f_equal. apply coupling_penalty_ext; [done|].
    intros i j _ _. by rewrite !pair_penalty_app.
  - intros c.
    rewrite collective_term_returns
      by (try apply Hdim; by rewrite ?length_fmap).
    do 2 f_equal. apply coupling_penalty_ext; [done|].
    intros i j Hij Hj. rewrite !pair_penalty_app by done.
    destruct (decide _); [|done].
    destruct (lookup_lt_is_Some_2 theta i ltac:(lia)) as [ti Hti].
    destruct (lookup_lt_is_Some_2 theta j ltac:(lia)) as [tj Htj].
    rewrite !list_lookup_fmap, Hti, Htj.
    cbn [fmap option_fmap option_map default id]. ring.
  - intros a Ha. apply coupling_penalty_zero. intros i j Hij Hj.
    rewrite pair_penalty_app by done. destruct (decide _); [|done].
    rewrite Ha, !lookup_replicate_2 by lia. cbn [from_option id]. ring.
Qed.

Lemma collective_term_invariances_witness :
  ∃ v, collective_efficiency_term (take 3 demo_x0 ++ [1; 2; 0]) 0 demo_instance
         = (Ok v, demo_instance) ∧
       0 ≤ v ∧
       collective_efficiency_term
         (take 3 demo_x0 ++ ((λ a, a + 1) <$> [1; 2; 0])) 0 demo_instance
         = (Ok v, demo_instance).
Proof.
  destruct (collective_term_invariances demo_instance (take 3 demo_x0)
              [1; 2; 0] 0) as (v & Hv & Hpos & _ & Hshift & _).
  - apply demo_coupling_defined.
  - reflexivity.
  - unfold state_dim. simpl. lia.
  - exists v. split_and!; [exact Hv|exact Hpos|apply Hshift].
Defined.

(** X6. Only the zero pattern of the entries above the diagonal of the
    coupling matrix matters: two instances with the same [num_nodes] whose
    matrices vanish at the same pairs [i < j] return the same collective
    term, whatever the magnitudes of the entries and whatever stands on or
    below the diagonal. *)
Theorem collective_term_zero_pattern (self self' : EnergyERCRD) (x : list Qc)
    (t : Qc) :
  num_nodes self = num_nodes self' →
  coupling_defined self → coupling_defined self' →
  (state_dim self ≤ length x)%nat →
  (∀ i j, (i < j)%nat → (j < num_nodes self)%nat →
     line_at self i j = 0 ↔ line_at self' i j = 0) →
  (collective_efficiency_term x t self).1
  = (collective_efficiency_term x t self').1.
Proof.
  intros Hn Hdef Hdef' Hdim Hpattern.
  cbn [collective_efficiency_term EnergyERCRD_model].
  rewrite !collective_term_returns
    by (done || (unfold state_dim in *; by rewrite <- Hn)).
  cbn [fst]. f_equal. apply coupling_penalty_ext; [done|].
  intros i j Hij Hj. unfold pair_penalty, theta_at. rewrite <- Hn.
  destruct (decide (line_at self i j ≠ 0)) as [Hnz|Hz],
    (decide (line_at self' i j ≠ 0)) as [Hnz'|Hz']; try done.
  - exfalso. apply Hnz, (Hpattern i j Hij Hj).
    by destruct (decide (line_at self' i j = 0)).
  - exfalso. apply Hnz', (Hpattern i j Hij Hj).
    by destruct (decide (line_at self i j = 0)).
Qed.

Lemma collective_term_zero_pattern_witness :
  (collective_efficiency_term [0; 0; 0; 1; 2; 0] 0 demo_instance).1
  = (collective_efficiency_term [0; 0; 0; 1; 2; 0] 0
       {| super := super demo_instance; num_nodes := 3;
          line_params := [[2; 1; 1]; [0; 0; Q2Qc 7]; [0; 0; 0]];
          generator_costs := demo_generator_costs;
          prev_P := None |}).1.
Proof.
  apply collective_term_zero_pattern.
  - reflexivity.
  - apply demo_coupling_defined.
  - intros i j Hij Hj. simpl in Hj.
    destruct i as [|[|[|i]]], j as [|[|[|j]]]; try lia; by eexists.
  - unfold state_dim. simpl. lia.
  - intros i j Hij Hj. simpl in Hj.
    destruct i as [|[|[|i]]], j as [|[|[|j]]]; try lia;
      split; intros H; by vm_compute in H.
Defined.

(** ** The adaptability term, case by case *)

Lemma Qc_sum_zero (p q : Qc) : 0 ≤ p → 0 ≤ q → p + q = 0 → p = 0 ∧ q = 0.
Proof.
  intros Hp Hq Hsum.
  assert (p ≤ 0) as Hp'.
  { rewrite <- Hsum. rewrite <- (Qcplus_0_r p) at 1.
    by apply Qcplus_le_mono_l. }
  assert (p = 0) as -> by (by apply Qcle_antisym).
  split; [done|]. by rewrite Qcplus_0_l in Hsum.
Qed.

Lemma Qc_square_zero (a b : Qc) : (a - b) * (a - b) = 0 → a = b.
Proof.
  intros H. apply Qcmult_integral in H.
  assert (a - b = 0) as H0 by (by destruct H).
  replace a with (a - b + b) by ring. rewrite H0. ring.
Qed.

Lemma sq_dist_cons a u b v :
  sq_dist (a :: u) (b :: v) = (a - b) * (a - b) + sq_dist u v.
Proof. reflexivity. Qed.

Lemma sq_dist_nonneg (u v : list Qc) : 0 ≤ sq_dist u v.
Proof.
  revert v. induction u as [|a u IH]; intros [|b v]; try done.
  rewrite sq_dist_cons.
  apply Qcplus_nonneg_nonneg; [apply Qc_square_nonneg|apply IH].
Qed.

Lemma sq_dist_zero_iff (u v : list Qc) :
  length u = length v → sq_dist u v = 0 ↔ u = v.
Proof.
  revert v. induction u as [|a u IH]; intros [|b v] Hlen; try done.
  rewrite sq_dist_cons. injection Hlen as Hlen. split.
  - intros H.
    apply Qc_sum_zero in H as [Hab Huv];
      [|apply Qc_square_nonneg|apply sq_dist_nonneg].
    apply Qc_square_zero in Hab. apply IH in Huv; [|done]. by subst.
  - intros [= -> ->]. rewrite (proj2 (IH v Hlen) eq_refl). ring.
Qed.

(** X7. With a memo [q] in place and [P] the first [num_nodes] entries of
    the state, [adaptability_term] follows numpy's subtraction: equal
    lengths give the squared distance, which is non-negative and zero
    exactly when [P] equals the memo; a memo of one entry is silently
    stretched over [P], and a [P] of one entry over the memo; any other pair
    of lengths raises [ValueError] and keeps the old memo. Every returning
    call replaces the memo by [P]. *)
Theorem adaptability_term_outcome (self : EnergyERCRD) (x q : list Qc)
    (t : Qc) :
  prev_P self = Some q →
  (length (take (num_nodes self) x) = length q →
     adaptability_term x t self
       = (Ok (sq_dist (take (num_nodes self) x) q),
          set_prev_P (take (num_nodes self) x) self) ∧
     0 ≤ sq_dist (take (num_nodes self) x) q ∧
     (sq_dist (take (num_nodes self) x) q = 0
      ↔ take (num_nodes self) x = q)) ∧
  (∀ y, q = [y] → length (take (num_nodes self) x) ≠ 1%nat →
     adaptability_term x t self
       = (Ok (np_sum ((λ p, (p - y) * (p - y))
                      <$> take (num_nodes self) x)),
          set_prev_P (take (num_nodes self) x) self)) ∧
  (∀ p, take (num_nodes self) x = [p] → length q ≠ 1%nat →
     adaptability_term x t self
       = (Ok (np_sum ((λ y, (p - y) * (p - y)) <$> q)),
          set_prev_P (take (num_nodes self) x) self)) ∧
  (length (take (num_nodes self) x) ≠ length q →
   length (take (num_nodes self) x) ≠ 1%nat → length q ≠ 1%nat →
     adaptability_term x t self = (Raise ValueError, self)).
Proof.
  intros Hmemo. cbn [adaptability_term EnergyERCRD_model].
  rewrite adaptability_term_run, Hmemo. cbn zeta.
  set (P := take (num_nodes self) x). unfold np_sub. split_and!.
  - intros Hlen. destruct (decide _) as [_|]; [|done].
    unfold mret, M_ret. rewrite np_square_sub.
    split_and!; [done|apply sq_dist_nonneg|by apply sq_dist_zero_iff].
  - intros y -> HP. destruct (decide _) as [|_]; [done|].
    destruct P as [|p0 [|p1 P]]; [done..|].
    unfold mret, M_ret, np_square. by rewrite <- list_fmap_compose.
  - intros p HP Hq. rewrite HP. destruct (decide _) as [E|_].
    { by rewrite <- E in Hq. }
    unfold mret, M_ret, np_square. by rewrite <- list_fmap_compose.
  - intros Hne HP Hq. destruct (decide _) as [|_]; [done|].
    by destruct P as [|p0 [|p1 P]], q as [|q0 [|q1 q]].
Qed.

Lemma adaptability_term_outcome_witness :
  adaptability_term [Q2Qc 50; Q2Qc 60] 0
    (set_prev_P (take 3 demo_x0) demo_instance)
  = (Raise ValueError, set_prev_P (take 3 demo_x0) demo_instance) ∧
  adaptability_term demo_x0 0 (set_prev_P [1] demo_instance)
  = (Ok (np_sum ((λ p, (p - 1) * (p - 1)) <$> take 3 demo_x0)),
     set_prev_P (take 3 demo_x0) demo_instance).
Proof.
  split.
  - destruct (adaptability_term_outcome
                (set_prev_P (take 3 demo_x0) demo_instance)
                [Q2Qc 50; Q2Qc 60] (take 3 demo_x0) 0 eq_refl)
      as (_ & _ & _ & Hraise).
    apply Hraise; simpl; lia.
  - destruct (adaptability_term_outcome (set_prev_P [1] demo_instance)
                demo_x0 [1] 0 eq_refl) as (_ & Hstretch & _).
    apply (Hstretch 1); [reflexivity|simpl; lia].
Defined.

(** ** When [constraints] raises *)

Lemma constraints_step_outcome (self : EnergyERCRD) (P : list Qc) (i : nat)
    (constraint_values : list Qc) :
  (gc ← attr generator_costs;
   '(_, _, max_gen) ← getitem gc i;
   P_i ← getitem P i;
   mret (constraint_values ++ [P_i - max_gen] ++ [- P_i])) self =
  match generator_costs self !! i, P !! i with
  | Some g, Some p => (Ok (constraint_values ++ [p - g.2] ++ [- p]), self)
  | _, _ => (Raise IndexError, self)
  end.
Proof.
  rewrite run_attr. unfold getitem.
  destruct (generator_costs self !! i) as [[[a b] c]|]; [|done].
  rewrite run_bind. unfold mret at 1, M_ret at 1.
  by destruct (P !! i).
Qed.

Lemma constraints_index_error (self : EnergyERCRD) (x : list Qc) (t : Qc) :
  ¬ well_formed self x →
  Energy.constraints x t self = (Raise IndexError, self).
Proof.
  intros Hbad. unfold Energy.constraints. rewrite !run_attr.
  unfold Energy.sum_axis0_item2 at 1.
  destruct (generator_costs self) as [|g0 gc] eqn:Egc; [done|].
  rewrite <- Egc in *. rewrite run_bind. unfold mret at 1, M_ret at 1.
  set (n := num_nodes self) in *.
  assert (¬ ((n ≤ length x)%nat ∧ (n ≤ length (generator_costs self))%nat))
    as Hshort.
  { intros [? ?]. apply Hbad. split_and!; [done..|]. by rewrite Egc. }
  apply for_each_raises.
  - intros i acc. rewrite constraints_step_outcome.
    destruct (generator_costs self !! i), (take n x !! i); eauto.
  - apply Exists_exists.
    exists (length x `min` length (generator_costs self))%nat. split.
    + unfold range. apply elem_of_seq. lia.
    + intros acc. rewrite constraints_step_outcome.
      destruct (decide (length x ≤ length (generator_costs self))%nat).
      * rewrite Nat.min_l by done.
        rewrite (lookup_ge_None_2 (take n x))
          by (rewrite length_take; lia).
        by destruct (generator_costs self !! length x).
      * rewrite Nat.min_r by lia.
        by rewrite (lookup_ge_None_2 (generator_costs self)).
Qed.

Lemma length_concat_pairs {A B} (f g : A → B) (l : list A) :
  length (concat ((λ i, [f i; g i]) <$> l)) = (2 * length l)%nat.
Proof.
  induction l as [|i l IH]; [done|].
  rewrite fmap_cons. cbn [concat length app]. rewrite IH. lia.
Qed.

Lemma residuals_length (self : EnergyERCRD) (x : list Qc) :
  length (residuals self x) = (2 * num_nodes self + 1)%nat.
Proof.
  unfold residuals, range. cbn [length].
  rewrite length_concat_pairs, length_seq. lia.
Qed.

(** X8. [constraints] returns its [2 * num_nodes + 1] residuals exactly
    when the cost table is not empty and both it and the state have
    [num_nodes] entries or more; otherwise it raises [IndexError], the
    instance unchanged. An instance with no node and no generator is in the
    second case: its [constraints] raises although its [efficiency_term]
    returns 0. *)
Theorem constraints_outcome (self : EnergyERCRD) (x : list Qc) (t : Qc) :
  constraints x t self =
    (if decide ((num_nodes self ≤ length x)%nat ∧
                (num_nodes self ≤ length (generator_costs self))%nat ∧
                generator_costs self ≠ [])
     then (Ok (residuals self x), self)
     else (Raise IndexError, self)) ∧
  length (residuals self x) = (2 * num_nodes self + 1)%nat ∧
  (num_nodes self = 0%nat → generator_costs self = [] →
     constraints x t self = (Raise IndexError, self) ∧
     efficiency_term x t self = (Ok 0, self)).
Proof.
  cbn [constraints efficiency_term EnergyERCRD_model]. split_and!.
  - destruct (decide _) as [Hwf|Hbad].
    + by apply constraints_run.
    + by apply constraints_index_error.
  - apply residuals_length.
  - intros Hn Hgc. split.
    + apply constraints_index_error. intros (_ & _ & Hne). by apply Hne.
    + rewrite efficiency_term_returns by lia.
      unfold generation_cost. by rewrite Hn, !take_0.
Qed.

(** ** Residuals and feasibility *)

Lemma Forall_concat_fmap_inv {A B} (P : B → Prop) (f : A → list B)
    (l : list A) a :
  Forall P (concat (f <$> l)) → a ∈ l → Forall P (f a).
Proof.
  induction l as [|b l IH]; intros Hall Ha; [by apply elem_of_nil in Ha|].
  rewrite fmap_cons in Hall. cbn [concat] in Hall.
  apply Forall_app in Hall as [Hb Hl].
  apply elem_of_cons in Ha as [->|Ha]; auto.
Qed.

Lemma Qc_sub_nonpos_inv (a b : Qc) : a - b ≤ 0 → a ≤ b.
Proof.
  intros H. apply (Qcplus_le_mono_r _ _ b) in H.
  by replace (a - b + b) with a in H by ring;
    replace (0 + b) with b in H by ring.
Qed.

Lemma Qc_opp_nonpos_inv (a : Qc) : - a ≤ 0 → 0 ≤ a.
Proof.
  intros H. apply Qc_opp_nonneg_iff in H. by rewrite Qcopp_involutive in H.
Qed.

(** X9. The residuals decide feasibility both ways: on a well-formed
    input every residual of [constraints] is non-positive exactly when every
    [P_i] lies between 0 and its declared capacity and the outputs add up to
    at most 0.8 times the sum of the capacities. *)
Theorem residuals_characterise_feasibility (self : EnergyERCRD)
    (x : list Qc) (t : Qc) :
  well_formed self x →
  ∃ rs, constraints x t self = (Ok rs, self) ∧
        (Forall (λ r, r ≤ 0) rs ↔
         (∀ i, (i < num_nodes self)%nat →
            0 ≤ P_at x i ≤ max_gen_at self i) ∧
         np_sum (take (num_nodes self) x) ≤ budget self).
Proof.
  intros Hwf. exists (residuals self x).
  split; [by apply constraints_run|]. split.
  - unfold residuals. intros Hall.
    apply Forall_cons in Hall as [Hbudget Hbox]. split.
    + intros i Hi.
      pose proof (Forall_concat_fmap_inv _ _ _ i Hbox) as Hi'.
      rewrite !Forall_cons in Hi'.
      destruct Hi' as (Hhi & Hlo & _).
      { unfold range. apply elem_of_seq. lia. }
      split; [by apply Qc_opp_nonpos_inv|by apply Qc_sub_nonpos_inv].
    + by apply Qc_sub_nonpos_inv.
  - intros [Hbox Hbudget]. by apply residuals_feasible.
Qed.

Lemma residuals_characterise_feasibility_witness :
  ∃ rs, constraints demo_x0 0 demo_instance = (Ok rs, demo_instance) ∧
        (Forall (λ r, r ≤ 0) rs ↔
         (∀ i, (i < 3)%nat →
            0 ≤ P_at demo_x0 i ≤ max_gen_at demo_instance i) ∧
         np_sum (take 3 demo_x0) ≤ budget demo_instance).
Proof.
  apply (residuals_characterise_feasibility demo_instance demo_x0 0).
  unfold well_formed. simpl. split_and!; [lia|lia|done].
Defined.

(** ** The objective of the energy model in closed form *)

Lemma length_range (n : nat) : length (range n) = n.
Proof. apply length_seq. Qed.

Lemma with_prev_P_same (self : EnergyERCRD) :
  with_prev_P (prev_P self) self = self.
Proof. by destruct self. Qed.

Lemma adaptability_term_fits (self : EnergyERCRD) (memo : option (list Qc))
    (x : list Qc) (t : Qc) :
  match memo with
  | None => True
  | Some prev => length (take (num_nodes self) x) = length prev
  end →
  adaptability_term x t (with_prev_P memo self)
  = (Ok (change_penalty self memo x),
     with_prev_P (Some (take (num_nodes self) x)) self).
Proof.
  intros Hfit. cbn [adaptability_term EnergyERCRD_model].
  rewrite adaptability_term_run. cbn [prev_P with_prev_P num_nodes]. cbn zeta.
  destruct memo as [prev|]; [|done].
  unfold np_sub. destruct (decide _) as [_|]; [|done].
  unfold mret, M_ret. by rewrite np_square_sub.
Qed.

Lemma energy_objective_step (self : EnergyERCRD) (rows : list (list Qc))
    (i : nat) (acc : Qc) (memo : option (list Qc)) (row : list Qc) :
  rows !! i = Some row →
  (state_dim self ≤ length row)%nat →
  (num_nodes self ≤ length (generator_costs self))%nat →
  coupling_defined self →
  match memo with
  | None => True
  | Some prev => length prev = num_nodes self
  end →
  objective_step rows i acc (with_prev_P memo self) =
  (Ok (acc + weight i (n_steps (super self))
             * (alpha (super self) * generation_cost self row
                + beta (super self) * change_penalty self memo row
                + gamma (super self) * coupling_penalty self row)
             * dt (super self)),
   with_prev_P (Some (take (num_nodes self) row)) self).
Proof.
  intros Hrow Hdim Hgc Hdef Hfit. unfold state_dim in Hdim.
  unfold objective_step. rewrite run_attr.
  rewrite (run_bind_ok _ _ _ _ _ (run_getitem _ _ _ _ Hrow)), run_attr.
  set (t := Qc_of_nat i * (dt ∘ base) (with_prev_P memo self)).
  assert (efficiency_term row t (with_prev_P memo self)
          = (Ok (generation_cost self row), with_prev_P memo self)) as He.
  { cbn [efficiency_term EnergyERCRD_model].
    by rewrite efficiency_term_returns by (cbn [num_nodes with_prev_P
      generator_costs]; lia). }
  rewrite (run_bind_ok _ _ _ _ _ He), run_attr.
  assert (adaptability_term row t (with_prev_P memo self)
          = (Ok (change_penalty self memo row),
             with_prev_P (Some (take (num_nodes self) row)) self)) as Ha.
  { apply adaptability_term_fits. destruct memo as [prev|]; [|done].
    rewrite length_take. lia. }
  rewrite (run_bind_ok _ _ _ _ _ Ha), run_attr.
  assert (collective_efficiency_term row t
            (with_prev_P (Some (take (num_nodes self) row)) self)
          = (Ok (coupling_penalty self row),
             with_prev_P (Some (take (num_nodes self) row)) self)) as Hc.
  { cbn [collective_efficiency_term EnergyERCRD_model].
    by rewrite collective_term_returns. }
  rewrite (run_bind_ok _ _ _ _ _ Hc), !run_attr. reflexivity.
Qed.

Lemma energy_objective_run (self : EnergyERCRD) (x_flat : list Qc) (d : nat) :
  n_steps (super self) ≠ 0%nat →
  length x_flat = (n_steps (super self) * d)%nat →
  (state_dim self ≤ d)%nat →
  (num_nodes self ≤ length (generator_costs self))%nat →
  coupling_defined self →
  memo_fits self →
  objective_function x_flat self =
  (Ok (energy_objective self (rows_of (n_steps (super self)) d x_flat)),
   with_prev_P
     (memo_before self (rows_of (n_steps (super self)) d x_flat)
        (n_steps (super self))) self).
Proof.
  intros HK Hlen Hdim Hgc Hdef Hfit. unfold objective_function.
  pose proof (decode_inferred_ok self x_flat d) as Hdecode.
  rewrite (run_bind_ok _ _ _ _ _ (Hdecode HK Hlen)).
  rewrite run_attr.
  cbn [base EnergyERCRD_model compose].
  set (K := n_steps (super self)) in *.
  set (rows := rows_of K d x_flat).
  destruct (for_each_inv
    (λ i acc s,
       s = with_prev_P (memo_before self rows i) self ∧
       acc = np_sum ((λ k, weight k K * stage_cost self rows k
                           * dt (super self)) <$> range i))
    (range K) (objective_step rows) 0 self)
    as (r & s' & Hrun & -> & ->).
  - intros i k acc s Hk [-> ->]. apply lookup_seq in Hk as [-> Hi].
    cbn [Nat.add].
    assert (is_Some (rows !! i)) as [row Hrow].
    { apply lookup_lt_is_Some_2. unfold rows. by rewrite rows_of_length. }
    assert (length row = d) as Hrowlen.
    { pose proof (rows_of_width _ _ _ Hlen) as Hw.
      rewrite Forall_lookup in Hw. by apply (Hw i). }
    rewrite (energy_objective_step self rows i _ _ row Hrow);
      [|lia|done|done|].
    + eexists _, _. split; [reflexivity|]. split.
      * cbn [memo_before]. by rewrite Hrow.
      * unfold range. rewrite seq_S, fmap_app, np_sum_app,
          list_fmap_singleton, np_sum_singleton. cbn [Nat.add].
        unfold stage_cost at 3. by rewrite Hrow.
    + destruct i as [|j]; cbn [memo_before].
      * apply Hfit.
      * destruct (rows !! j) as [prev|] eqn:Hprev; [|done].
        cbn [fmap option_fmap option_map].
        pose proof (rows_of_width _ _ _ Hlen) as Hw.
        rewrite Forall_lookup in Hw. specialize (Hw j prev Hprev).
        unfold state_dim in Hdim. rewrite length_take. lia.
  - split; [|done]. cbn [memo_before]. symmetry. apply with_prev_P_same.
  - by rewrite Hrun, !length_range.
Qed.

(** X10. On the energy model, for a flat vector of [K] rows of at least
    [2 * num_nodes] entries, a cost table and a coupling matrix that cover
    every node, and no memo or one of [num_nodes] entries,
    [objective_function] returns the trapezoidal sum over the rows of
    [alpha * cost + beta * change + gamma * coupling], where the change
    penalty of the first row is measured against the stored memo (zero
    without one) and that of every later row against the outputs of the row
    before it; on return the memo holds the outputs of the last row. *)
Theorem energy_objective_closed_form (self : EnergyERCRD)
    (x_flat : list Qc) (d : nat) :
  n_steps (super self) ≠ 0%nat →
  length x_flat = (n_steps (super self) * d)%nat →
  (state_dim self ≤ d)%nat →
  (num_nodes self ≤ length (generator_costs self))%nat →
  coupling_defined self →
  memo_fits self →
  ∃ last,
    rows_of (n_steps (super self)) d x_flat !! (n_steps (super self) - 1)%nat
      = Some last ∧
    objective_function x_flat self =
      (Ok (energy_objective self (rows_of (n_steps (super self)) d x_flat)),
       set_prev_P (take (num_nodes self) last) self).
Proof.
  intros HK Hlen Hdim Hgc Hdef Hfit.
  rewrite (energy_objective_run self x_flat d) by done.
  destruct (n_steps (super self)) as [|K] eqn:EK; [done|].
  cbn [memo_before]. replace (Datatypes.S K - 1)%nat with K by lia.
  destruct (lookup_lt_is_Some_2 (rows_of (Datatypes.S K) d x_flat) K)
    as [last Hlast]; [rewrite rows_of_length; lia|].
  exists last. by rewrite Hlast.
Qed.

Lemma energy_objective_closed_form_witness :
  ∃ last,
    rows_of 2 2 [1; 0; 2; 0] !! 1%nat = Some last ∧
    objective_function [1; 0; 2; 0] single_node_model =
      (Ok (energy_objective single_node_model (rows_of 2 2 [1; 0; 2; 0])),
       set_prev_P (take 1 last) single_node_model).
Proof.
  apply (energy_objective_closed_form single_node_model [1; 0; 2; 0] 2).
  - simpl. lia.
  - reflexivity.
  - unfold state_dim. simpl. lia.
  - simpl. lia.
  - intros i j Hij Hj. simpl in Hj. lia.
  - exact I.
Defined.

(** ** The all-zero trajectory *)

Lemma rows_of_replicate {A} (K d : nat) (a : A) :
  rows_of K d (replicate (K * d) a) = replicate K (replicate d a).
Proof.
  induction K as [|K IH]; [done|].
  cbn [rows_of Nat.mul replicate]. rewrite replicate_add.
  rewrite take_app_length', drop_app_length' by (by rewrite length_replicate).
  by rewrite IH.
Qed.

Lemma np_sum_fmap_le {A} (f g : A → Qc) (l : list A) :
  (∀ k, k ∈ l → f k ≤ g k) → np_sum (f <$> l) ≤ np_sum (g <$> l).
Proof.
  induction l as [|k l IH]; intros Hfg; [done|].
  rewrite !fmap_cons, !np_sum_cons. apply Qcplus_le_compat.
  - apply Hfg. by left.
  - apply IH. intros k' Hk'. apply Hfg. by right.
Qed.

Lemma weight_nonneg (k K : nat) : 0 ≤ weight k K.
Proof. unfold weight. by destruct (decide _). Qed.

Lemma variable_cost_nonneg (P : list Qc) (gc : list (Qc * Qc * Qc)) :
  Forall (λ p, 0 ≤ p) P →
  Forall (λ g, 0 ≤ g.1.1 ∧ 0 ≤ g.1.2) gc →
  Forall (λ v, 0 ≤ v) (zip_with variable_cost_row P gc).
Proof.
  intros HP. revert gc.
  induction HP as [|p P Hp _ IH]; intros gc Hgc; [constructor|].
  destruct Hgc as [|[[a b] c] gc [Ha Hb] Hgc]; [constructor|].
  cbn [zip_with]. constructor; [|by apply IH].
  cbn [variable_cost_row]. cbn [fst snd] in Ha, Hb.
  apply Qcplus_nonneg_nonneg; repeat apply Qcmult_nonneg_nonneg; done.
Qed.

Lemma variable_cost_zero (n : nat) (gc : list (Qc * Qc * Qc)) :
  Forall (λ v, v = 0) (zip_with variable_cost_row (replicate n 0) gc).
Proof.
  revert gc. induction n as [|n IH]; intros [|[[a b] c] gc];
    cbn [replicate zip_with]; constructor; [|apply IH].
  cbn [variable_cost_row]. ring.
Qed.

Lemma sq_dist_same (u : list Qc) : sq_dist u u = 0.
Proof. by apply sq_dist_zero_iff. Qed.

Lemma coupling_penalty_zero_angles (self : EnergyERCRD) (d : nat) :
  coupling_penalty self (replicate d 0) = 0.
Proof.
  apply coupling_penalty_zero. intros i j _ _. unfold pair_penalty.
  destruct (decide _); [|done].
  assert (∀ k, theta_at self (replicate d 0) k = 0) as Hzero.
  { intros k. unfold theta_at. rewrite drop_replicate.
    destruct (decide (k < d - num_nodes self)%nat).
    - by rewrite lookup_replicate_2.
    - by rewrite lookup_ge_None_2 by (rewrite length_replicate; lia). }
  rewrite !Hzero. ring.
Qed.

Section ZeroDispatch.
Context (self : EnergyERCRD) (d : nat).
Hypothesis Hdim : (state_dim self ≤ d)%nat.
Hypothesis Hgc : (num_nodes self ≤ length (generator_costs self))%nat.

Lemma stage_cost_lower_bound (rows : list (list Qc)) (k : nat) (row : list Qc) :
  rows !! k = Some row → length row = d →
  0 ≤ alpha (super self) → 0 ≤ beta (super self) → 0 ≤ gamma (super self) →
  Forall (λ g, 0 ≤ g.1.1 ∧ 0 ≤ g.1.2)
    (take (num_nodes self) (generator_costs self)) →
  Forall (λ p, 0 ≤ p) (take (num_nodes self) row) →
  alpha (super self) * np_sum (max_gen_at self <$> range (num_nodes self))
  ≤ stage_cost self rows k.
Proof.
  intros Hrow Hlen Ha Hb Hg Hcoef Hpos. unfold stage_cost. rewrite Hrow.
  cbn [from_option id]. cbn zeta. unfold state_dim in Hdim.
  rewrite generation_cost_split by lia.
  set (C := np_sum (max_gen_at self <$> range (num_nodes self))).
  set (V := np_sum (zip_with variable_cost_row _ _)).
  assert (0 ≤ V) as HV by (by apply np_sum_nonneg, variable_cost_nonneg).
  assert (0 ≤ change_penalty self (memo_before self rows k) row) as HD.
  { unfold change_penalty. destruct (memo_before _ _ _); [|done].
    apply sq_dist_nonneg. }
  pose proof (coupling_penalty_nonneg self row) as HQ.
  replace (alpha (super self) * C)
    with (alpha (super self) * C + 0 + 0) by ring.
  repeat apply Qcplus_le_compat; try (by apply Qcmult_nonneg_nonneg).
  apply Qcmult_le_mono_nonneg_l; [done|].
  rewrite <- (Qcplus_0_l C) at 1. by apply Qcplus_le_mono_r.
Qed.

Lemma stage_cost_zero_rows (K k : nat) :
  prev_P self = None → (k < K)%nat →
  stage_cost self (replicate K (replicate d 0)) k
  = alpha (super self)
    * np_sum (max_gen_at self <$> range (num_nodes self)).
Proof.
  intros Hfresh Hk. unfold stage_cost.
  rewrite lookup_replicate_2 by done. cbn [from_option id]. cbn zeta.
  unfold state_dim in Hdim.
  rewrite generation_cost_split by (rewrite ?length_replicate; lia).
  rewrite take_replicate, (np_sum_zero _ (variable_cost_zero _ _)).
  rewrite coupling_penalty_zero_angles.
  assert (change_penalty self
            (memo_before self (replicate K (replicate d 0)) k)
            (replicate d 0) = 0) as ->.
  { destruct k as [|j]; cbn [memo_before].
    - by rewrite Hfresh.
    - rewrite lookup_replicate_2 by lia.
      cbn [fmap option_fmap option_map change_penalty]. apply sq_dist_same. }
  ring.
Qed.
End ZeroDispatch.

(** X11. Nothing in the formulation asks for any generation. On a fresh
    energy model with non-negative weights, step size and cost coefficients
    [a], [b], every trajectory with non-negative outputs costs at least as
    much as the all-zero trajectory of the same shape; and when the declared
    capacities are non-negative the all-zero state satisfies every
    constraint. *)
Theorem zero_dispatch_is_cheapest (self : EnergyERCRD) (x_flat : list Qc)
    (d : nat) :
  prev_P self = None →
  n_steps (super self) ≠ 0%nat →
  length x_flat = (n_steps (super self) * d)%nat →
  (state_dim self ≤ d)%nat →
  (num_nodes self ≤ length (generator_costs self))%nat →
  coupling_defined self →
  0 ≤ alpha (super self) → 0 ≤ beta (super self) → 0 ≤ gamma (super self) →
  0 ≤ dt (super self) →
  Forall (λ g, 0 ≤ g.1.1 ∧ 0 ≤ g.1.2)
    (take (num_nodes self) (generator_costs self)) →
  Forall (λ row, Forall (λ p, 0 ≤ p) (take (num_nodes self) row))
    (rows_of (n_steps (super self)) d x_flat) →
  (∃ v v0 s s0,
     objective_function x_flat self = (Ok v, s) ∧
     objective_function (replicate (n_steps (super self) * d) 0) self
       = (Ok v0, s0) ∧
     v0 ≤ v) ∧
  (generator_costs self ≠ [] →
   (∀ i, (i < num_nodes self)%nat → 0 ≤ max_gen_at self i) →
   0 ≤ budget self →
   ∀ t, ∃ rs, constraints (replicate d 0) t self = (Ok rs, self) ∧
              Forall (λ r, r ≤ 0) rs).
Proof.
  intros Hfresh HK Hlen Hdim Hgc Hdef Ha Hb Hg Hdt Hcoef Hpos.
  assert (memo_fits self) as Hfit by (unfold memo_fits; by rewrite Hfresh).
  split.
  - eexists _, _, _, _.
    split; [by apply (energy_objective_run self x_flat d)|].
    split.
    { apply (energy_objective_run self _ d); try done.
      by rewrite length_replicate. }
    rewrite rows_of_replicate. unfold energy_objective.
    apply np_sum_fmap_le. intros k Hk. unfold range in Hk.
    apply elem_of_seq in Hk.
    rewrite (stage_cost_zero_rows self d Hdim Hgc) by (done || lia).
    destruct (lookup_lt_is_Some_2
                (rows_of (n_steps (super self)) d x_flat) k)
      as [row Hrow]; [rewrite rows_of_length; lia|].
    apply Qcmult_le_mono_nonneg_r; [done|].
    apply Qcmult_le_mono_nonneg_l; [apply weight_nonneg|].
    apply (stage_cost_lower_bound self d Hdim Hgc _ _ row); try done.
    + pose proof (rows_of_width _ _ _ Hlen) as Hw.
      rewrite Forall_lookup in Hw. by apply (Hw k).
    + rewrite Forall_lookup in Hpos. by apply (Hpos k).
  - intros Hne Hcap Hbudget t. exists (residuals self (replicate d 0)).
    unfold state_dim in Hdim.
    cbn [constraints EnergyERCRD_model]. split.
    + apply constraints_run. split_and!; [|done..].
      rewrite length_replicate. lia.
    + apply residuals_feasible.
      * intros i Hi. unfold P_at.
        rewrite lookup_replicate_2 by lia. cbn [from_option id].
        split; [done|by apply Hcap].
      * rewrite take_replicate. 
        rewrite (np_sum_zero (replicate _ 0)); [done|].
        by apply Forall_replicate.
Qed.

Lemma zero_dispatch_is_cheapest_witness :
  ∃ v v0 s s0,
    objective_function [1; 0; 2; 0] single_node_model = (Ok v, s) ∧
    objective_function (replicate (2 * 2) 0) single_node_model = (Ok v0, s0) ∧
    v0 ≤ v.
Proof.
  apply (zero_dispatch_is_cheapest single_node_model [1; 0; 2; 0] 2).
  - reflexivity.
  - simpl. lia.
  - reflexivity.
  - unfold state_dim. simpl. lia.
  - simpl. lia.
  - intros i j Hij Hj. simpl in Hj. lia.
  - compute_done.
  - compute_done.
  - compute_done.
  - compute_done.
  - repeat constructor; compute_done.
  - repeat constructor; compute_done.
Defined.


(** ** Shape errors of the objective *)

Lemma decode_shape_check_raises_inferred {S} `{!DomainModel S} (self : S)
    (x_flat : list Qc) :
  n_steps (base self) ≠ 0%nat →
  (length x_flat `mod` n_steps (base self))%nat ≠ 0%nat →
  objective_function x_flat self = (Raise ValueError, self).
Proof.
  intros HK Hmod. unfold objective_function.
  by rewrite run_bind, (decode_inferred_raises self x_flat HK Hmod).
Qed.

(** ** Rows that are too narrow *)

(** X12. On the energy model with a non-empty cost table covering every
    node: stacking the constraints of a [K]-row trajectory of width at least
    [num_nodes] returns [K * (2 * num_nodes + 1)] residuals, the block of
    row [k] standing at offset [k * (2 * num_nodes + 1)]; with rows narrower
    than [num_nodes] both [path_constraints] and [objective_function] raise
    [IndexError] and leave the instance unchanged. *)
Theorem narrow_rows_raise (self : EnergyERCRD) (n_states : nat)
    (v : list Qc) :
  n_steps (super self) ≠ 0%nat →
  length v = (n_steps (super self) * n_states)%nat →
  (num_nodes self ≤ length (generator_costs self))%nat →
  generator_costs self ≠ [] →
  ((num_nodes self ≤ n_states)%nat →
     ∃ stacked,
       path_constraints n_states v self = (Ok stacked, self) ∧
       length stacked
         = (n_steps (super self) * (2 * num_nodes self + 1))%nat ∧
       ∀ k row,
         rows_of (n_steps (super self)) n_states v !! k = Some row →
         take (2 * num_nodes self + 1)
           (drop (k * (2 * num_nodes self + 1)) stacked)
         = residuals self row) ∧
  ((n_states < num_nodes self)%nat →
     path_constraints n_states v self = (Raise IndexError, self) ∧
     objective_function v self = (Raise IndexError, self)).
Proof.
  intros HK Hlen Hgc Hne. split.
  - intros Hn. eexists.
    split; [by apply path_constraints_run|].
    set (rows := rows_of (n_steps (super self)) n_states v).
    set (m := (2 * num_nodes self + 1)%nat).
    assert (Forall (λ r, length r = m) (residuals self <$> rows)) as Hw.
    { apply Forall_fmap, Forall_true. intros row. apply residuals_length. }
    assert (length (residuals self <$> rows) = n_steps (super self)) as Hrows
      by (unfold rows; by rewrite length_fmap, rows_of_length).
    assert (length (concat (residuals self <$> rows))
            = (n_steps (super self) * m)%nat) as Hstacked.
    { rewrite <- Hrows. clear Hrows.
      induction Hw as [|r l Hr _ IH]; [done|].
      cbn [concat length]. rewrite length_app, IH, Hr. lia. }
    split; [done|]. intros k row Hrow.
    pose proof (rows_of_concat m _ Hw) as Hsplit. rewrite Hrows in Hsplit.
    assert (k < n_steps (super self))%nat as Hk.
    { apply lookup_lt_Some in Hrow. unfold rows in Hrow.
      by rewrite rows_of_length in Hrow. }
    pose proof (rows_of_lookup (n_steps (super self)) m
                  (concat (residuals self <$> rows)) k Hk) as Hlook.
    rewrite Hsplit, list_lookup_fmap, Hrow in Hlook.
    by injection Hlook as ->.
  - intros Hnarrow.
    destruct (n_steps (super self)) as [|K] eqn:EK; [done|].
    assert (is_Some (rows_of (Datatypes.S K) n_states v !! 0%nat))
      as [row Hrow].
    { apply lookup_lt_is_Some_2. rewrite rows_of_length. lia. }
    assert (length row = n_states) as Hrowlen.
    { pose proof (rows_of_width (Datatypes.S K) n_states v Hlen) as Hw.
      rewrite Forall_lookup in Hw. by apply (Hw 0%nat). }
    split.
    + unfold path_constraints.
      pose proof (decode_fixed_ok self n_states v) as Hdecode.
      cbn [base EnergyERCRD_model] in Hdecode. rewrite EK in Hdecode.
      rewrite (run_bind_ok _ _ _ _ _ (Hdecode Hlen)), run_attr.
      cbn [base EnergyERCRD_model compose]. rewrite EK.
      cbn [range seq for_each]. rewrite run_bind, run_attr.
      rewrite (run_bind_ok _ _ _ _ _ (run_getitem _ _ _ _ Hrow)), run_bind.
      cbn [constraints EnergyERCRD_model].
      rewrite constraints_index_error; [done|].
      intros (Hx & _). lia.
    + unfold objective_function.
      pose proof (decode_inferred_ok self v n_states) as Hdecode.
      cbn [base EnergyERCRD_model] in Hdecode. rewrite EK in Hdecode.
      rewrite (run_bind_ok _ _ _ _ _ (Hdecode ltac:(done) Hlen)), run_attr.
      cbn [base EnergyERCRD_model compose]. rewrite EK.
      cbn [range seq for_each]. rewrite run_bind.
      unfold objective_step at 1. rewrite run_attr.
      rewrite (run_bind_ok _ _ _ _ _ (run_getitem _ _ _ _ Hrow)), run_attr,
        run_bind.
      cbn [efficiency_term EnergyERCRD_model].
      rewrite efficiency_term_index_error; [done|].
      intros (Hx & _). lia.
Qed.

Lemma narrow_rows_raise_witness :
  path_constraints 2 (tile [Q2Qc 50; Q2Qc 60] 24) demo_instance
    = (Raise IndexError, demo_instance) ∧
  objective_function (tile [Q2Qc 50; Q2Qc 60] 24) demo_instance
    = (Raise IndexError, demo_instance).
Proof.
  apply (narrow_rows_raise demo_instance 2 (tile [Q2Qc 50; Q2Qc 60] 24)).
  - simpl. lia.
  - reflexivity.
  - simpl. lia.
  - done.
  - simpl. lia.
Defined.

(** ** The abstract class *)

(** X13. On an instance of the abstract class with at least one step, the
    shape check comes first and the missing implementation second:
    [objective_function] raises [ValueError] when the length is not a
    multiple of [n_steps] and [NotImplementedError] otherwise, and
    [path_constraints] raises [ValueError] when the length is not
    [n_steps * n_states] and [NotImplementedError] otherwise; neither ever
    returns, and the instance is unchanged. *)
Theorem abstract_class_never_returns (self : ERCRDOptimizer)
    (x_flat : list Qc) (n_states : nat) :
  n_steps self ≠ 0%nat →
  objective_function x_flat self =
    (Raise (if decide ((length x_flat `mod` n_steps self)%nat = 0%nat)
            then NotImplementedError else ValueError), self) ∧
  path_constraints n_states x_flat self =
    (Raise (if decide (length x_flat = (n_steps self * n_states)%nat)
            then NotImplementedError else ValueError), self).
Proof.
  intros HK. split.
  - destruct (decide _) as [Hmod|Hmod].
    + unfold objective_function.
      pose proof (decode_inferred_ok self x_flat
                    (length x_flat / n_steps self)) as Hdecode.
      cbn [base ERCRDOptimizer_model id] in Hdecode.
      assert (length x_flat
              = (n_steps self * (length x_flat / n_steps self))%nat) as Hmul
        by (by apply Nat.Div0.div_exact).
      rewrite (run_bind_ok _ _ _ _ _ (Hdecode HK Hmul)), run_attr.
      cbn [base ERCRDOptimizer_model id compose].
      destruct (n_steps self) as [|K] eqn:EK; [done|].
      cbn [range seq for_each]. rewrite run_bind.
      unfold objective_step at 1. rewrite run_attr.
      assert (is_Some (rows_of (Datatypes.S K)
                 (length x_flat / Datatypes.S K) x_flat !! 0%nat))
        as [row Hrow].
      { apply lookup_lt_is_Some_2. rewrite rows_of_length. lia. }
      by rewrite (run_bind_ok _ _ _ _ _ (run_getitem _ _ _ _ Hrow)).
    + by apply decode_shape_check_raises_inferred.
  - destruct (decide _) as [Hlen|Hlen].
    + unfold path_constraints.
      pose proof (decode_fixed_ok self n_states x_flat) as Hdecode.
      cbn [base ERCRDOptimizer_model id] in Hdecode.
      rewrite (run_bind_ok _ _ _ _ _ (Hdecode Hlen)), run_attr.
      cbn [base ERCRDOptimizer_model id compose].
      destruct (n_steps self) as [|K] eqn:EK; [done|].
      cbn [range seq for_each]. rewrite run_bind, run_attr.
      assert (is_Some (rows_of (Datatypes.S K) n_states x_flat !! 0%nat))
        as [row Hrow].
      { apply lookup_lt_is_Some_2. rewrite rows_of_length. lia. }
      by rewrite (run_bind_ok _ _ _ _ _ (run_getitem _ _ _ _ Hrow)).
    + unfold path_constraints.
      pose proof (decode_fixed_raises self n_states x_flat) as E.
      cbn [base ERCRDOptimizer_model id] in E.
      by rewrite run_bind, (E Hlen).
Qed.


Lemma abstract_class_never_returns_witness :
  ERCRDOptimizer_init default_alpha default_beta default_gamma
    default_time_horizon default_discretization_steps = Ok default_optimizer ∧
  objective_function (replicate 200 0) default_optimizer
    = (Raise NotImplementedError, default_optimizer) ∧
  objective_function (replicate 150 0) default_optimizer
    = (Raise ValueError, default_optimizer).
Proof.
  split; [reflexivity|]. split.
  - apply (abstract_class_never_returns default_optimizer (replicate 200 0) 2).
    compute_done.
  - apply (abstract_class_never_returns default_optimizer (replicate 150 0) 2).
    compute_done.
Defined.

(** ** How [optimize] fails *)

Section DriverFailures.
Context {S : Type} `{!DomainModel S}.

(** X14. [optimize] catches nothing and repairs nothing: an exception
    raised during the solver call (by the solver or by a term it evaluates)
    leaves [optimize] with that exception and the instance as the solver
    left it, and a solver result whose vector does not have
    [n_steps * len(x0)] entries makes the final decoding raise
    [ValueError]; in both cases no result dictionary is returned. *)
Theorem optimize_failures (minimize : minimize_t S) (x0 : list Qc)
    (method : string) (max_iter : nat) (self : S) :
  (∀ e self',
     minimize objective_function (tile x0 (n_steps (base self))) method
       (replicate (length x0 * n_steps (base self)) (None, None))
       (solver_constraints (length x0))
       {| maxiter := max_iter; ftol := Q2Qc (1 # 1000000) |} self
     = (Raise e, self') →
     optimize minimize x0 method max_iter self = (Raise e, self')) ∧
  (∀ result self',
     minimize objective_function (tile x0 (n_steps (base self))) method
       (replicate (length x0 * n_steps (base self)) (None, None))
       (solver_constraints (length x0))
       {| maxiter := max_iter; ftol := Q2Qc (1 # 1000000) |} self
     = (Ok result, self') →
     length (r_x result) ≠ (n_steps (base self') * length x0)%nat →
     optimize minimize x0 method max_iter self = (Raise ValueError, self')) ∧
  (∀ e self',
     objective_function (tile x0 (n_steps (base self))) self
       = (Raise e, self') →
     ∀ success message,
       optimize (stopping_solver success message) x0 method max_iter self
       = (Raise e, self')).
Proof.
  split_and!.
  - intros e self' Hsolver. unfold optimize. rewrite run_attr. cbv zeta.
    by rewrite (run_bind_raise _ _ _ _ _ Hsolver).
  - intros result self' Hsolver Hlen. unfold optimize. rewrite run_attr.
    cbv zeta. rewrite (run_bind_ok _ _ _ _ _ Hsolver), pack_result_run.
    by destruct (decide _).
  - intros e self' Hobj success message. unfold optimize. rewrite run_attr.
    cbv zeta. apply run_bind_raise. unfold stopping_solver.
    by apply run_bind_raise.
Qed.
End DriverFailures.

(** ** The objective of a model with functional terms *)

Section Quadrature.
Context {S : Type} `{!DomainModel S}.

Lemma objective_step_functional I fe fa fc X k row total self :
  functional_term I fe efficiency_term →
  functional_term I fa adaptability_term →
  functional_term I fc collective_efficiency_term →
  X !! k = Some row →
  I self →
  ∃ self',
    objective_step X k total self =
      (Ok (total
           + weight k (n_steps (base self))
             * (alpha (base self) * fe row (Qc_of_nat k * dt (base self))
                + beta (base self) * fa row (Qc_of_nat k * dt (base self))
                + gamma (base self)
                  * fc row (Qc_of_nat k * dt (base self)))
             * dt (base self)), self') ∧
    I self' ∧ base self' = base self.
Proof.
  intros He Ha Hc Hrow HI. unfold objective_step.
  rewrite run_attr. rewrite (run_bind_ok _ _ _ _ _ (run_getitem _ _ _ _ Hrow)).
  rewrite run_attr.
  destruct (He row (Qc_of_nat k * (dt ∘ base) self) self HI)
    as (s1 & E1 & I1 & B1).
  rewrite (run_bind_ok _ _ _ _ _ E1), run_attr.
  destruct (Ha row (Qc_of_nat k * (dt ∘ base) self) s1 I1)
    as (s2 & E2 & I2 & B2).
  rewrite (run_bind_ok _ _ _ _ _ E2), run_attr.
  destruct (Hc row (Qc_of_nat k * (dt ∘ base) self) s2 I2)
    as (s3 & E3 & I3 & B3).
  rewrite (run_bind_ok _ _ _ _ _ E3), !run_attr.
  exists s3. cbn [compose]. rewrite B3, B2, B1. by split_and!.
Qed.

(** X15. For a model whose three terms are functions [fe], [fa], [fc] of
    the state and the time, constructed with weights [a], [b], [g], horizon
    [T0] and [K] steps, the objective of a flat vector of [K] rows is the
    sum over [k < K] of
    [weight k * (a * fe + b * fa + g * fc)(row k, k * T0 / K) * T0 / K]:
    the terms are sampled at the times [k * T0 / K], the last of which is
    [T0 - T0 / K], one step short of the horizon. *)
Theorem objective_samples_left_grid (I : S → Prop)
    (fe fa fc : list Qc → Qc → Qc) (a b g T0 : Qc) (K d : nat)
    (x_flat : list Qc) (self : S) :
  ERCRDOptimizer_init a b g T0 K = Ok (base self) →
  I self →
  functional_term I fe efficiency_term →
  functional_term I fa adaptability_term →
  functional_term I fc collective_efficiency_term →
  length x_flat = (K * d)%nat →
  (∃ self',
     objective_function x_flat self =
       (Ok (np_sum
              ((λ k,
                  let row := default [] (rows_of K d x_flat !! k) in
                  let t := Qc_of_nat k * (T0 / Qc_of_nat K) in
                  weight k K * (a * fe row t + b * fa row t + g * fc row t)
                  * (T0 / Qc_of_nat K))
               <$> range K)), self') ∧
     I self' ∧ base self' = base self) ∧
  Qc_of_nat (K - 1) * (T0 / Qc_of_nat K) = T0 - T0 / Qc_of_nat K.
Proof.
  intros Hinit HI He Ha Hc Hlen.
  unfold ERCRDOptimizer_init in Hinit.
  destruct (decide (K = 0)%nat) as [|HK]; [done|].
  injection Hinit as Hbase. split.
  - assert (n_steps (base self) = K) as HnK by (by rewrite <- Hbase).
    unfold objective_function.
    pose proof (decode_inferred_ok self x_flat d) as Hdecode.
    rewrite HnK in Hdecode.
    rewrite (run_bind_ok _ _ _ _ _ (Hdecode HK Hlen)), run_attr.
    cbn [compose]. rewrite HnK.
    set (rows := rows_of K d x_flat).
    destruct (for_each_inv
      (λ i acc s, I s ∧ base s = base self ∧
         acc = np_sum
           ((λ k,
               let row := default [] (rows !! k) in
               let t := Qc_of_nat k * (T0 / Qc_of_nat K) in
               weight k K * (a * fe row t + b * fa row t + g * fc row t)
               * (T0 / Qc_of_nat K)) <$> range i))
      (range K) (objective_step rows) 0 self)
      as (r & self' & Hrun & HI' & Hb' & ->).
    + intros i k acc s Hk (HIs & Hb & ->).
      apply lookup_seq in Hk as [-> Hi]. cbn [Nat.add].
      assert (is_Some (rows !! i)) as [row Hrow].
      { apply lookup_lt_is_Some_2. unfold rows. by rewrite rows_of_length. }
      destruct (objective_step_functional I fe fa fc rows i row
                  (np_sum ((λ k,
                     let row := default [] (rows !! k) in
                     let t := Qc_of_nat k * (T0 / Qc_of_nat K) in
                     weight k K
                     * (a * fe row t + b * fa row t + g * fc row t)
                     * (T0 / Qc_of_nat K)) <$> range i)) s)
        as (s' & Hstep & HIs' & Hb''); try done.
      eexists _, s'. split; [exact Hstep|]. split; [done|].
      split; [congruence|].
      unfold range. rewrite seq_S, fmap_app, np_sum_app,
        list_fmap_singleton, np_sum_singleton. cbn [Nat.add]. cbn zeta.
      rewrite Hrow, Hb, <- Hbase. reflexivity.
    + done.
    + exists self'. by rewrite Hrun, length_range.
  - destruct K as [|K]; [done|].
    replace (Datatypes.S K - 1)%nat with K by lia.
    rewrite Qc_of_nat_S. field.
    rewrite <- Qc_of_nat_S. by apply Qc_of_nat_nonzero.
Qed.
End Quadrature.

Lemma objective_samples_left_grid_witness :
  (∃ self',
     objective_function [0; 0; 0; 0] clock_four_steps =
       (Ok (np_sum
              ((λ k,
                  let row := default [] (rows_of 4 1 [0; 0; 0; 0 : Qc] !! k) in
                  let t := Qc_of_nat k * (2 / Qc_of_nat 4) in
                  weight k 4 * (1 * t + 0 * 0 + 0 * 0) * (2 / Qc_of_nat 4))
               <$> range 4)), self') ∧
     True ∧ base self' = base clock_four_steps) ∧
  Qc_of_nat (4 - 1) * (2 / Qc_of_nat 4) = 2 - 2 / Qc_of_nat 4.
Proof.
  apply (objective_samples_left_grid (λ _, True)
           (λ _ t, t) (λ _ _, 0) (λ _ _, 0) 1 0 0 2 4 1
           [0; 0; 0; 0] clock_four_steps).
  - reflexivity.
  - exact I.
  - intros x t self _. by exists self.
  - intros x t self _. by exists self.
  - intros x t self _. by exists self.
  - reflexivity.
Defined.

(** ** The objective of the initial guess *)

Lemma np_sum_weights (K : nat) (c : Qc) (i : nat) :
  np_sum ((λ k, weight k K * c) <$> range i) = c * weight_sum K i.
Proof.
  induction i as [|i IH].
  - unfold weight_sum, range. cbn [seq]. rewrite !fmap_nil, np_sum_nil. ring.
  - rewrite weight_sum_S. unfold range in *.
    rewrite seq_S, fmap_app, np_sum_app, IH, list_fmap_singleton,
      np_sum_singleton.
    cbn [Nat.add]. ring.
Qed.

(** X16. The starting point that [optimize] builds by tiling [x0] has no
    change penalty: on a fresh energy model (at least [2 * num_nodes]
    entries in [x0], cost table and coupling matrix covering every node) its
    objective is [(alpha * cost(x0) + gamma * coupling(x0)) * dt * (K - 1)]
    for [K >= 2] steps, and half of one such term for a single step; the
    memo is left at the outputs of [x0]. *)
Theorem initial_guess_objective (self : EnergyERCRD) (x0 : list Qc) :
  prev_P self = None →
  n_steps (super self) ≠ 0%nat →
  (state_dim self ≤ length x0)%nat →
  (num_nodes self ≤ length (generator_costs self))%nat →
  coupling_defined self →
  objective_function (tile x0 (n_steps (super self))) self =
  (Ok ((alpha (super self) * generation_cost self x0
        + gamma (super self) * coupling_penalty self x0)
       * dt (super self)
       * (if decide (n_steps (super self) = 1)%nat
          then Q2Qc (1 # 2) else Qc_of_nat (n_steps (super self)) - 1)),
   set_prev_P (take (num_nodes self) x0) self).
Proof.
  intros Hfresh HK Hdim Hgc Hdef.
  rewrite (energy_objective_run self _ (length x0));
    [|done|apply length_tile|done..|unfold memo_fits; by rewrite Hfresh].
  rewrite rows_of_tile. set (K := n_steps (super self)) in *.
  assert (memo_before self (replicate K x0) K
          = Some (take (num_nodes self) x0)) as ->.
  { destruct K as [|K']; [done|]. cbn [memo_before].
    by rewrite lookup_replicate_2 by lia. }
  f_equal. f_equal. unfold energy_objective. fold K.
  set (c := alpha (super self) * generation_cost self x0
            + gamma (super self) * coupling_penalty self x0).
  rewrite <- (weight_sum_total K HK).
  rewrite (list_fmap_ext _ (λ k, weight k K * (c * dt (super self)))).
  - rewrite np_sum_weights. ring.
  - intros _ k Hk%list_elem_of_lookup_2. unfold range in Hk.
    apply elem_of_seq in Hk. unfold stage_cost.
    rewrite lookup_replicate_2 by lia. cbn [from_option id]. cbn zeta.
    assert (change_penalty self (memo_before self (replicate K x0) k) x0 = 0)
      as ->.
    { destruct k as [|j]; cbn [memo_before].
      - by rewrite Hfresh.
      - rewrite lookup_replicate_2 by lia.
        cbn [fmap option_fmap option_map change_penalty].
        apply sq_dist_same. }
    unfold c. ring.
Qed.

Lemma initial_guess_objective_witness :
  objective_function (tile demo_x0 24) demo_instance =
  (Ok ((default_alpha * generation_cost demo_instance demo_x0
        + default_gamma * coupling_penalty demo_instance demo_x0)
       * (Q2Qc 24 / Qc_of_nat 24)
       * (if decide (24 = 1)%nat then Q2Qc (1 # 2) else Qc_of_nat 24 - 1)),
   set_prev_P (take 3 demo_x0) demo_instance).
Proof.
  apply (initial_guess_objective demo_instance demo_x0).
  - reflexivity.
  - simpl. lia.
  - unfold state_dim. simpl. lia.
  - simpl. lia.
  - apply demo_coupling_defined.
Defined.
